(** * ByteHunter: a shallow embedding of [main.py]

    The program walks directory trees, keeps the files that decode as text,
    scans every line of those files with [re.finditer(SEARCH_TERM, line,
    re.IGNORECASE)] and writes one CSV row per file that matched.

    Python objects that the program only consumes are modelled by what the
    program can observe of them:
    - text is a [string], a character being a code point in the range
      U+0000..U+00FF;
    - a path is the list of its parts, relative to the working directory;
    - a file is the sequence of the chunks that the text layer decodes, each
      one a text or the exception that it raises;
    - the patterns of [re] made of ordinary characters and dots are
      interpreted ([Re]); the others are left to a parameter, [re_other];
    - the constants of the module are the fields of a [config];
    - the printed lines, the store [results_dict] and the rows handed to the
      CSV writer make up the [world] that the functions of the program
      transform;
    - the thread pool of the scan phase is a step relation over the queue,
      the workers and the world ([pool_step]); [main] is the run in which
      every task is worked off in turn, and [main_scheduled] relates the
      initial world to every world in which the program can end. *)

From Stdlib Require Import List String Ascii Arith Bool Lia Permutation DecimalString.
From Stdlib Require Import Sorted.
Import ListNotations.
Open Scope string_scope.
Open Scope list_scope.
Open Scope nat_scope.

(** ** Exceptions and outcomes *)

(** The exceptions the program can meet; all of them derive from Python's
    [Exception]. *)
Inductive exn : Type :=
| UnicodeDecodeError
| FileNotFoundError
| IsADirectoryError
| PermissionError
| OSError
| re_error.

(** What a call does: it returns a value or raises. *)
Inductive outcome (A : Type) : Type :=
| Return (a : A)
| Raise (e : exn).
Arguments Return {A} a.
Arguments Raise {A} e.

(** ** Characters and case folding *)

Definition code (c : ascii) : nat := nat_of_ascii c.

(** [str.lower] on one code point below U+0100: the Basic Latin capitals and
    the Latin-1 capitals (U+00C0..U+00DE without the multiplication sign). *)
Definition lower (c : ascii) : ascii :=
  let n := code c in
  if ((65 <=? n) && (n <=? 90))
     || ((192 <=? n) && (n <=? 222) && negb (n =? 215))
  then ascii_of_nat (n + 32)
  else c.

Definition newline : ascii := ascii_of_nat 10.
Definition slash : ascii := "/"%char.

Module Re.

(** The fragment of [re] patterns that is modelled: every character of
    the pattern is an ordinary character, which matches itself, or the
    dot. *)
Inductive atom : Type :=
| Lit (c : ascii)
| AnyChar.

Definition pattern : Type := list atom.

(** The special characters of Python's pattern syntax. *)
Definition metachars : string := ".^$*+?{}[]\|()".

Fixpoint mem_char (c : ascii) (s : string) : bool :=
  match s with
  | EmptyString => false
  | String d s' => Ascii.eqb c d || mem_char c s'
  end.

Definition is_meta (c : ascii) : bool := mem_char c metachars.

(** [compile] parses a pattern of the fragment; [None] means that the
    pattern uses syntax outside it. *)
Fixpoint compile (p : string) : option pattern :=
  match p with
  | EmptyString => Some []
  | String c p' =>
      match compile p' with
      | None => None
      | Some atoms =>
          if Ascii.eqb c "."%char then Some (AnyChar :: atoms)
          else if is_meta c then None
          else Some (Lit c :: atoms)
      end
  end.

(** A pattern without any special character. *)
Fixpoint is_literal (p : string) : bool :=
  match p with
  | EmptyString => true
  | String c p' => negb (is_meta c) && is_literal p'
  end.

(** One atom against one character, under [re.IGNORECASE]. *)
Definition atom_matches (a : atom) (c : ascii) : bool :=
  match a with
  | Lit d => Ascii.eqb (lower d) (lower c)
  | AnyChar => negb (Ascii.eqb c newline)
  end.

(** Does the pattern match at the start of [s]? *)
Fixpoint match_here (pat : pattern) (s : string) : bool :=
  match pat, s with
  | [], _ => true
  | _ :: _, EmptyString => false
  | a :: pat', String c s' => atom_matches a c && match_here pat' s'
  end.

(** The scan of [finditer]: the string is read left to right, [pos] is the
    offset of [s] in the whole string.  After a match the search resumes
    at the end of the match, so the [skip] characters that remain of it
    start no match; after an empty match it resumes one character
    further.  Empty matches are included. *)
Fixpoint scan (pat : pattern) (skip pos : nat) (s : string) : list nat :=
  match skip with
  | S k =>
      match s with
      | EmptyString => []
      | String _ s' => scan pat k (S pos) s'
      end
  | O =>
      if match_here pat s then
        pos :: match s with
               | EmptyString => []
               | String _ s' => scan pat (pred (List.length pat)) (S pos) s'
               end
      else
        match s with
        | EmptyString => []
        | String _ s' => scan pat 0 (S pos) s'
        end
  end.

(** [[m.start() for m in re.finditer(pat, s, re.IGNORECASE)]] for a
    compiled pattern of the fragment. *)
Definition starts (pat : pattern) (s : string) : list nat := scan pat 0 0 s.

End Re.

(** ** Paths *)

(** A [pathlib.Path], by its [parts].  The paths of the program are relative
    to the working directory; [Path("./")] has no parts. *)
Definition Path : Type := list string.

(** [Path(root)/name] *)
Definition joinpath (root : Path) (name : string) : Path := root ++ [name].

(** [str(path)] *)
Definition str_path (p : Path) : string :=
  match p with
  | [] => "."
  | _ :: _ => String.concat "/" p
  end.

Definition path_eqb (p q : Path) : bool :=
  if list_eq_dec String.string_dec p q then true else false.

(** [path in paths], for a set of paths. *)
Definition mem_path (p : Path) (paths : list Path) : bool :=
  existsb (path_eqb p) paths.

(** [x in xs], for a list of strings. *)
Definition mem_string (x : string) (xs : list string) : bool :=
  existsb (String.eqb x) xs.

(** [path.is_relative_to(other)]: [other] is [path] or one of its parents. *)
Fixpoint is_relative_to (p other : Path) : bool :=
  match other, p with
  | [], _ => true
  | _ :: _, [] => false
  | d :: other', c :: p' => String.eqb c d && is_relative_to p' other'
  end.

(** [name.rfind('.')] *)
Fixpoint rfind_dot (s : string) : option nat :=
  match s with
  | EmptyString => None
  | String c s' =>
      match rfind_dot s' with
      | Some i => Some (S i)
      | None => if Ascii.eqb c "."%char then Some 0 else None
      end
  end.

(** [path.name] *)
Definition name (p : Path) : string := last p "".

(** [path.suffix]: the last dot-separated portion of the name, with its
    dot, unless the dot is the first or the last character. *)
Definition suffix (p : Path) : string :=
  let n := name p in
  match rfind_dot n with
  | Some i =>
      if (0 <? i) && (i <? String.length n - 1)
      then substring i (String.length n - i) n
      else ""
  | None => ""
  end.

(** ** The file system and the text layer *)

(** A file opened with [open('r', encoding='utf-8')] is decoded chunk by
    chunk.  A chunk is the text that the decoder delivers for it (line ends
    already translated to a newline), or the exception that reading or
    decoding it raises. *)
Inductive chunk : Type :=
| Text (s : string)
| Broken (e : exn).

Inductive file : Type :=
| Readable (chunks : list chunk)
| Unopenable (e : exn).

#[warnings="-register-all"] Inductive node : Type :=
| File (f : file)
| Directory (entries : list (string * node)).

Fixpoint find_entry (nm : string) (entries : list (string * node)) : option node :=
  match entries with
  | [] => None
  | (nm', n) :: rest => if String.eqb nm nm' then Some n else find_entry nm rest
  end.

Fixpoint lookup (n : node) (p : Path) : option node :=
  match p with
  | [] => Some n
  | c :: p' =>
      match n with
      | File _ => None
      | Directory entries =>
          match find_entry c entries with
          | Some m => lookup m p'
          | None => None
          end
      end
  end.

(** [path.open('r', encoding='utf-8')] *)
Definition open_text (fs : node) (p : Path) : outcome (list chunk) :=
  match lookup fs p with
  | None => Raise FileNotFoundError
  | Some (Directory _) => Raise IsADirectoryError
  | Some (File (Unopenable e)) => Raise e
  | Some (File (Readable cs)) => Return cs
  end.

(** [file.read(n)] on a freshly opened file: chunks are decoded until [n]
    characters are there or the file ends. *)
Fixpoint read (n : nat) (cs : list chunk) : outcome string :=
  match cs with
  | [] => Return ""
  | Broken e :: _ => if n =? 0 then Return "" else Raise e
  | Text s :: cs' =>
      if n <=? String.length s then Return (substring 0 n s)
      else match read (n - String.length s) cs' with
           | Return r => Return (s ++ r)%string
           | Raise e => Raise e
           end
  end.

(** The lines that end in [pending ++ s], each with its newline, and the
    unterminated rest. *)
Fixpoint split_lines (pending s : string) : list string * string :=
  match s with
  | EmptyString => ([], pending)
  | String c s' =>
      if Ascii.eqb c newline
      then let (ls, rest) := split_lines "" s' in
           ((pending ++ String c "")%string :: ls, rest)
      else split_lines (pending ++ String c "")%string s'
  end.

(** [for line in file]: the lines that the loop receives and, when the
    iteration ends by an exception, that exception.  A line is handed over
    as soon as its newline is decoded; the next chunk is only read when the
    pending text holds no complete line. *)
Fixpoint iter_lines (pending : string) (cs : list chunk) : list string * option exn :=
  match cs with
  | [] => (match pending with EmptyString => [] | _ => [pending] end, None)
  | Broken e :: _ => ([], Some e)
  | Text s :: cs' =>
      let (ls, rest) := split_lines pending s in
      let (ls', r) := iter_lines rest cs' in
      (ls ++ ls', r)
  end.

(** ** Configuration *)

Record config : Type := {
  SEARCH_TERM : string;
  DIRECTORIES_TO_SEARCH : list Path;
  EXCLUDE_DIRECTORIES : list Path;
  INCLUDE_FILE_TYPES : list string;
  EXCLUDE_FILE_TYPES : list string;
  OUTPUT_CSV : string;
  NUM_THREADS : nat
}.

(** The values of [main.py]; [NUM_THREADS] is the fallback of
    [os.cpu_count() or 10]. *)
Definition default_config : config := {|
  SEARCH_TERM := "whatever";
  DIRECTORIES_TO_SEARCH := [ [] ];
  EXCLUDE_DIRECTORIES := [];
  INCLUDE_FILE_TYPES := [];
  EXCLUDE_FILE_TYPES := [];
  OUTPUT_CSV := "search_results.csv";
  NUM_THREADS := 10
|}.

(** ** Program state *)

(** [(line_number, pos, pos + len(SEARCH_TERM))] *)
Definition match_record : Type := (nat * nat * nat)%type.

Definition line_of (r : match_record) : nat := fst (fst r).
Definition start_of (r : match_record) : nat := snd (fst r).
Definition end_of (r : match_record) : nat := snd r.

(** A Python [dict] with string keys: the items in insertion order. *)
Definition dict (V : Type) : Type := list (string * V).

(** [d[k] = v]: a key that is present keeps its place. *)
Fixpoint dict_set {V : Type} (k : string) (v : V) (d : dict V) : dict V :=
  match d with
  | [] => [(k, v)]
  | (k', v') :: d' =>
      if String.eqb k k' then (k, v) :: d' else (k', v') :: dict_set k v d'
  end.

Fixpoint dict_get {V : Type} (k : string) (d : dict V) : option V :=
  match d with
  | [] => None
  | (k', v') :: d' => if String.eqb k k' then Some v' else dict_get k d'
  end.

Definition keys {V : Type} (d : dict V) : list string := map fst d.

(** What the program prints. *)
Inductive message : Type :=
| Warning_unable_to_read (p : Path) (e : exn)
| Error_reading_file (p : Path) (e : exn)
| Total_files_collected (n : nat)
| Total_searchable_files (n : nat)
| Search_completed (output : string).

(** One row handed to the CSV writer: the cells in the order of the field
    names. *)
Definition csv_row : Type := list string.

Record world : Type := {
  results_dict : dict (list match_record);
  stdout : list message;
  csvfile : list csv_row
}.

Definition initial_world : world :=
  {| results_dict := []; stdout := []; csvfile := [] |}.

(** Computations of the program: they read and update the world and return
    or raise. *)
Definition M (A : Type) : Type := world -> outcome A * world.

Definition ret {A : Type} (a : A) : M A := fun w => (Return a, w).

Definition bind {A B : Type} (m : M A) (f : A -> M B) : M B :=
  fun w =>
    match m w with
    | (Return a, w') => f a w'
    | (Raise e, w') => (Raise e, w')
    end.

Notation "x <- m ;; k" := (bind m (fun x => k))
  (at level 61, m at next level, right associativity).
Notation "m ;; k" := (bind m (fun _ => k))
  (at level 61, right associativity).

Definition print (m : message) : M unit :=
  fun w => (Return tt,
            {| results_dict := results_dict w;
               stdout := stdout w ++ [m];
               csvfile := csvfile w |}).

(** [results_dict[k] = v] *)
Definition setitem (k : string) (v : list match_record) : M unit :=
  fun w => (Return tt,
            {| results_dict := dict_set k v (results_dict w);
               stdout := stdout w;
               csvfile := csvfile w |}).

(** [for x in xs: f(x)] *)
Fixpoint for_each {A : Type} (f : A -> M unit) (xs : list A) : M unit :=
  match xs with
  | [] => ret tt
  | x :: xs' => f x ;; for_each f xs'
  end.

(** [[x for x in xs if f(x)]] *)
Fixpoint select (f : Path -> M bool) (xs : list Path) : M (list Path) :=
  match xs with
  | [] => ret []
  | x :: xs' =>
      b <- f x ;;
      rest <- select f xs' ;;
      ret (if b then x :: rest else rest)
  end.

(** ** Rendering of values *)

(** [str(n)] *)
Definition str_nat (n : nat) : string :=
  NilZero.string_of_uint (Nat.to_uint n).

(** [str((line, start, end))] *)
Definition str_record (r : match_record) : string :=
  ("(" ++ str_nat (line_of r) ++ ", " ++ str_nat (start_of r) ++ ", "
       ++ str_nat (end_of r) ++ ")")%string.

(** [str(positions)] *)
Definition str_positions (positions : list match_record) : string :=
  ("[" ++ String.concat ", " (map str_record positions) ++ "]")%string.

(** ** The program *)

Section Program.

(** Python's [re] on the patterns outside the modelled fragment:
    [[m.start() for m in re.finditer(pattern, line, re.IGNORECASE)]], or the
    exception that the call raises. *)
Variable re_other : string -> string -> outcome (list nat).

Variable cfg : config.

(** The tree below the working directory. *)
Variable fs : node.

(** [[match.start() for match in re.finditer(SEARCH_TERM, line,
    re.IGNORECASE)]] *)
Definition occurrences (term line : string) : outcome (list nat) :=
  match Re.compile term with
  | Some pat => Return (Re.starts pat line)
  | None => re_other term line
  end.

(** The [except] clauses of [is_file_searchable]. *)
Definition not_searchable (file_path : Path) (e : exn) : M bool :=
  match e with
  | UnicodeDecodeError => ret false
  | _ => print (Warning_unable_to_read file_path e) ;; ret false
  end.

Definition is_file_searchable (file_path : Path) : M bool :=
  if existsb (fun excl_dir => is_relative_to file_path excl_dir)
             (EXCLUDE_DIRECTORIES cfg)
  then ret false
  else if negb (Nat.eqb (List.length (INCLUDE_FILE_TYPES cfg)) 0)
          && negb (mem_string (suffix file_path) (INCLUDE_FILE_TYPES cfg))
  then ret false
  else if mem_string (suffix file_path) (EXCLUDE_FILE_TYPES cfg)
  then ret false
  else
    match open_text fs file_path with
    | Raise e => not_searchable file_path e
    | Return chunks =>
        match read 1024 chunks with
        | Raise e => not_searchable file_path e
        | Return _ => ret true
        end
    end.

(** What one turn of the loop over the lines appends to [local_results]. *)
Definition line_records (line_number : nat) (line : string)
    : outcome (list match_record) :=
  match occurrences (SEARCH_TERM cfg) line with
  | Raise e => Raise e
  | Return occ =>
      Return (map (fun pos =>
                     (line_number, pos, pos + String.length (SEARCH_TERM cfg)))
                  occ)
  end.

(** The loop over the lines of [search_file]: [local_results] when the loop
    is left, and the exception that left it, if any. *)
Fixpoint scan_lines (line_number : nat) (local_results : list match_record)
    (lines : list string) : list match_record * option exn :=
  match lines with
  | [] => (local_results, None)
  | line :: rest =>
      let line_number := line_number + 1 in
      match line_records line_number line with
      | Raise e => (local_results, Some e)
      | Return found => scan_lines line_number (local_results ++ found) rest
      end
  end.

(** The [try] block of [search_file]: [local_results] when the block is
    left, and the exception that left it, if any. *)
Definition read_matches (file_path : Path) : list match_record * option exn :=
  match open_text fs file_path with
  | Raise e => ([], Some e)
  | Return chunks =>
      let (lines, broken) := iter_lines "" chunks in
      match scan_lines 0 [] lines with
      | (local_results, Some e) => (local_results, Some e)
      | (local_results, None) => (local_results, broken)
      end
  end.

(** The block of [search_file] that runs under the lock. *)
Definition record (key : string) (local_results : list match_record) : M unit :=
  match local_results with
  | [] => ret tt
  | _ :: _ => setitem key local_results
  end.

(** The [except] clause of [search_file]. *)
Definition report_error (file_path : Path) (raised : option exn) : M unit :=
  match raised with
  | Some e => print (Error_reading_file file_path e)
  | None => ret tt
  end.

Definition search_file (file_path : Path) : M unit :=
  let (local_results, raised) := read_matches file_path in
  report_error file_path raised ;;
  record (str_path file_path) local_results.

Definition fieldnames : csv_row := ["File Path"; "Occurrence Count"; "Positions"].

Definition report_row (item : string * list match_record) : csv_row :=
  let (file_path, positions) := item in
  [file_path; str_nat (List.length positions); str_positions positions].

Definition write_to_csv : M unit :=
  fun w => (Return tt,
            {| results_dict := results_dict w;
               stdout := stdout w;
               csvfile := fieldnames :: map report_row (results_dict w) |}).

(** The names of the entries of a directory that are not directories. *)
Definition file_names (entries : list (string * node)) : list string :=
  flat_map (fun e => match snd e with File _ => [fst e] | Directory _ => [] end)
           entries.

(** [os.walk(root, topdown=True)] with the pruning of [collect_files]: the
    files of a directory first, then the directories that are kept,
    in turn. *)
Fixpoint walk (root : Path) (n : node) {struct n} : list Path :=
  match n with
  | File _ => []
  | Directory entries =>
      map (joinpath root) (file_names entries) ++
      (fix subdirs (es : list (string * node)) : list Path :=
         match es with
         | [] => []
         | (d, sub) :: es' =>
             match sub with
             | File _ => []
             | Directory _ =>
                 if mem_path (joinpath root d) (EXCLUDE_DIRECTORIES cfg)
                 then []
                 else walk (joinpath root d) sub
             end ++ subdirs es'
         end) entries
  end.

Definition collect_files (root_dir : Path) : list Path :=
  match lookup fs root_dir with
  | Some n => walk root_dir n
  | None => []
  end.

Definition all_files : list Path :=
  flat_map collect_files (DIRECTORIES_TO_SEARCH cfg).

(** The filter phase of [main]: the count of the files collected is
    printed, the filter tasks run, and the files found searchable are kept
    in the order [completed] in which [as_completed] hands the tasks
    over. *)
Definition filter_phase (completed : list Path) : M (list Path) :=
  print (Total_files_collected (List.length all_files)) ;;
  files_to_search <- select is_file_searchable completed ;;
  print (Total_searchable_files (List.length files_to_search)) ;;
  ret files_to_search.

(** The end of [main], after the scan phase. *)
Definition report_phase : M unit :=
  write_to_csv ;;
  print (Search_completed (OUTPUT_CSV cfg)).

(** [main], when each pool works off its tasks one after the other in the
    order of their submission. *)
Definition main : M unit :=
  files_to_search <- filter_phase all_files ;;
  for_each search_file files_to_search ;;
  report_phase.

(** *** The worker pool of the scan phase

    [executor.map(search_file, files_to_search)]: every file is queued; a
    free worker takes the next file, runs the [try] block of [search_file]
    on its own and then, holding the lock, the block that records.  A step
    of the pool is one of these three moves by one worker. *)

Inductive task : Type :=
| Scanning (file_path : Path)
| AtLock (file_path : Path) (local_results : list match_record).

Record pool : Type := {
  queue : list Path;
  running : list task;
  shared : world
}.

Inductive pool_step (max_workers : nat) : pool -> pool -> Prop :=
| step_take p q ts w :
    List.length ts < max_workers ->
    pool_step max_workers
      {| queue := p :: q; running := ts; shared := w |}
      {| queue := q; running := ts ++ [Scanning p]; shared := w |}
| step_scan q ts1 p ts2 w :
    pool_step max_workers
      {| queue := q; running := ts1 ++ Scanning p :: ts2; shared := w |}
      {| queue := q;
         running := ts1 ++ AtLock p (fst (read_matches p)) :: ts2;
         shared := snd (report_error p (snd (read_matches p)) w) |}
| step_record q ts1 p local_results ts2 w :
    pool_step max_workers
      {| queue := q; running := ts1 ++ AtLock p local_results :: ts2; shared := w |}
      {| queue := q;
         running := ts1 ++ ts2;
         shared := snd (record (str_path p) local_results w) |}.

Inductive pool_steps (max_workers : nat) : pool -> pool -> Prop :=
| steps_done st : pool_steps max_workers st st
| steps_next st1 st2 st3 :
    pool_step max_workers st1 st2 ->
    pool_steps max_workers st2 st3 ->
    pool_steps max_workers st1 st3.

(** The pool with [max_workers] workers can take the world from [w] to [w']
    on [files]: everything is queued at the start, and at the end the queue
    is empty and every worker is idle. *)
Definition executor_map (max_workers : nat) (files : list Path) (w w' : world) : Prop :=
  pool_steps max_workers
    {| queue := files; running := []; shared := w |}
    {| queue := []; running := []; shared := w' |}.

(** The worlds in which [main] can end, started in the initial world,
    whatever the scheduler does: the filter tasks complete in some order,
    and the pool of [NUM_THREADS] workers runs the scan phase. *)
Definition main_scheduled (w' : world) : Prop :=
  exists completed files_to_search w1 w2,
    Permutation completed all_files /\
    filter_phase completed initial_world = (Return files_to_search, w1) /\
    executor_map (NUM_THREADS cfg) files_to_search w1 w2 /\
    w' = snd (report_phase w2).

End Program.

(** ** Notions used by the statements *)

(** The rows of the report below the header, and the file path of a row. *)
Definition data_rows (w : world) : list csv_row := tl (csvfile w).
Definition row_path (r : csv_row) : string := hd "" r.

(** The filter decision as a value: what [is_file_searchable] returns. *)
Definition searchable (cfg : config) (fs : node) (p : Path) : bool :=
  match fst (is_file_searchable cfg fs p initial_world) with
  | Return b => b
  | Raise _ => false
  end.

(** What a call of [search_file] does to [results_dict]. *)
Definition scan_into (re_other : string -> string -> outcome (list nat))
    (cfg : config) (fs : node)
    (d : dict (list match_record)) (p : Path) : dict (list match_record) :=
  match fst (read_matches re_other cfg fs p) with
  | [] => d
  | (_ :: _) as local_results => dict_set (str_path p) local_results d
  end.

(** The default configuration with another search term. *)
Definition with_term (term : string) : config := {|
  SEARCH_TERM := term;
  DIRECTORIES_TO_SEARCH := DIRECTORIES_TO_SEARCH default_config;
  EXCLUDE_DIRECTORIES := EXCLUDE_DIRECTORIES default_config;
  INCLUDE_FILE_TYPES := INCLUDE_FILE_TYPES default_config;
  EXCLUDE_FILE_TYPES := EXCLUDE_FILE_TYPES default_config;
  OUTPUT_CSV := OUTPUT_CSV default_config;
  NUM_THREADS := NUM_THREADS default_config
|}.

(** The default configuration with another number of workers. *)
Definition with_workers (n : nat) : config := {|
  SEARCH_TERM := SEARCH_TERM default_config;
  DIRECTORIES_TO_SEARCH := DIRECTORIES_TO_SEARCH default_config;
  EXCLUDE_DIRECTORIES := EXCLUDE_DIRECTORIES default_config;
  INCLUDE_FILE_TYPES := INCLUDE_FILE_TYPES default_config;
  EXCLUDE_FILE_TYPES := EXCLUDE_FILE_TYPES default_config;
  OUTPUT_CSV := OUTPUT_CSV default_config;
  NUM_THREADS := n
|}.

(** An engine that rejects every pattern outside the modelled fragment; the
    examples only use patterns of the fragment, for which no engine is
    consulted. *)
Definition fragment_only : string -> string -> outcome (list nat) :=
  fun _ _ => Raise re_error.

(** The pattern of the fragment that a term without special characters
    compiles to. *)
Fixpoint lits (term : string) : Re.pattern :=
  match term with
  | EmptyString => []
  | String c term' => Re.Lit c :: lits term'
  end.

(** The string without its first [n] characters. *)
Fixpoint drop (n : nat) (s : string) : string :=
  match n, s with
  | O, _ => s
  | S _, EmptyString => EmptyString
  | S n', String _ s' => drop n' s'
  end.

(** Equality of two strings, character by character, up to case. *)
Fixpoint ci_equal (a b : string) : bool :=
  match a, b with
  | EmptyString, EmptyString => true
  | String x a', String y b' => Ascii.eqb (lower x) (lower y) && ci_equal a' b'
  | _, _ => false
  end.

(** The term occurs in the line at position [p]: up to case, it equals the
    substring of its length that starts there. *)
Definition occurs_at (term line : string) (p : nat) : Prop :=
  p <= String.length line /\
  ci_equal term (substring p (String.length term) line) = true.

(** A path as [pathlib] builds it: no part holds a slash, and none is the
    dot, which [pathlib] drops. *)
Definition part_ok (c : string) : bool :=
  negb (Re.mem_char slash c) && negb (String.eqb c ".").

Definition well_formed (p : Path) : Prop := Forall (fun c => part_ok c = true) p.

(** A tree whose entries all have names that can be parts of a path. *)
Fixpoint names_ok (n : node) : Prop :=
  match n with
  | File _ => True
  | Directory entries =>
      (fix all (es : list (string * node)) : Prop :=
         match es with
         | [] => True
         | (nm, sub) :: es' => part_ok nm = true /\ names_ok sub /\ all es'
         end) entries
  end.

(** Induction over a tree, with the property at hand for every entry of a
    directory. *)
Section NodeInduction.

Variable P : node -> Prop.
Hypothesis P_file : forall f, P (File f).
Hypothesis P_directory :
  forall entries, Forall (fun e => P (snd e)) entries -> P (Directory entries).

Fixpoint node_induction (n : node) : P n :=
  match n with
  | File f => P_file f
  | Directory entries =>
      P_directory entries
        ((fix each (es : list (string * node)) : Forall (fun e => P (snd e)) es :=
            match es with
            | [] => Forall_nil _
            | (nm, sub) :: es' =>
                Forall_cons (nm, sub) (node_induction sub) (each es')
            end) entries)
  end.

End NodeInduction.

(** A part without a slash; a string that is empty or starts with a slash. *)
Definition no_slash (c : string) : Prop := Re.mem_char slash c = false.

Definition slash_or_end (r : string) : Prop :=
  match r with
  | EmptyString => True
  | String c _ => c = slash
  end.

(** What follows the first part in the string of a path. *)
Definition after_first (l : list string) : string :=
  match l with
  | [] => EmptyString
  | _ :: _ => (String slash EmptyString ++ String.concat "/" l)%string
  end.

(** The number of characters of the chunks [texts]. *)
Definition decoded_length (texts : list string) : nat :=
  list_sum (map String.length texts).

(** *** The invariant of the pool

    While the pool works on the files [files]: the keys of the store are
    distinct; every item of the store is what the scan of one of the files
    found, and is not empty; the queue and the workers hold files of
    [files], a worker at the lock holding what the scan of its file found;
    and every file with a match is in the store, in the queue or with a
    worker. *)

Definition task_ok (re_other : string -> string -> outcome (list nat))
    (cfg : config) (fs : node) (files : list Path) (t : task) : Prop :=
  match t with
  | Scanning p => In p files
  | AtLock p local_results =>
      In p files /\ local_results = fst (read_matches re_other cfg fs p)
  end.

Definition accounted (re_other : string -> string -> outcome (list nat))
    (cfg : config) (fs : node) (st : pool) (p : Path) : Prop :=
  In (str_path p) (keys (results_dict (shared st))) \/
  In p (queue st) \/
  In (Scanning p) (running st) \/
  In (AtLock p (fst (read_matches re_other cfg fs p))) (running st).

Record pool_inv (re_other : string -> string -> outcome (list nat))
    (cfg : config) (fs : node) (files : list Path) (st : pool) : Prop := {
  inv_keys : NoDup (keys (results_dict (shared st)));
  inv_items : forall k v,
    In (k, v) (results_dict (shared st)) ->
    exists p, In p files /\ k = str_path p /\
              v = fst (read_matches re_other cfg fs p) /\ v <> [];
  inv_queue : forall p, In p (queue st) -> In p files;
  inv_tasks : Forall (task_ok re_other cfg fs files) (running st);
  inv_all : forall p,
    In p files -> fst (read_matches re_other cfg fs p) <> [] ->
    accounted re_other cfg fs st p
}.

(** [n] times the character [c]. *)
Fixpoint replicate (n : nat) (c : ascii) : string :=
  match n with
  | O => EmptyString
  | S n' => String c (replicate n' c)
  end.

Definition nl : string := String newline EmptyString.

(** *** File systems of the examples *)

(** A directory with the one file [a.txt] of three lines. *)
Definition fs_a_txt : node :=
  Directory
    [("a.txt",
      File (Readable [Text ("foo" ++ nl ++ "whatever bar" ++ nl ++ "WHATEVER" ++ nl)%string]))].

(** A file whose first chunk decodes, with a match on its first line, and
    whose second chunk holds an invalid byte sequence. *)
Definition fs_late_invalid : node :=
  Directory
    [("big.txt",
      File (Readable [Text ("whatever" ++ nl ++ replicate (8 * 1024 - 9) "x"%char)%string;
                      Broken UnicodeDecodeError]))].

(** A file whose very first chunk does not decode, next to a text file. *)
Definition fs_binary : node :=
  Directory
    [("blob.bin", File (Readable [Broken UnicodeDecodeError]));
     ("note.txt", File (Readable [Text ("Whatever" ++ nl)%string]))].

(** A tree with a subdirectory, and a configuration whose roots overlap. *)
Definition fs_nested : node :=
  Directory
    [("top.txt", File (Readable [Text ("nothing here" ++ nl)%string]));
     ("sub", Directory
        [("x.txt", File (Readable [Text ("say whatever" ++ nl)%string]))])].

Definition overlapping_roots : config := {|
  SEARCH_TERM := "whatever";
  DIRECTORIES_TO_SEARCH := [ []; ["sub"] ];
  EXCLUDE_DIRECTORIES := [];
  INCLUDE_FILE_TYPES := [];
  EXCLUDE_FILE_TYPES := [];
  OUTPUT_CSV := "search_results.csv";
  NUM_THREADS := 10
|}.

Definition excluding_sub : config := {|
  SEARCH_TERM := "whatever";
  DIRECTORIES_TO_SEARCH := [ [] ];
  EXCLUDE_DIRECTORIES := [ ["sub"] ];
  INCLUDE_FILE_TYPES := [];
  EXCLUDE_FILE_TYPES := [];
  OUTPUT_CSV := "search_results.csv";
  NUM_THREADS := 10
|}.

(** *** Notions of the further properties *)

(** What opening the file and reading its first 1024 characters does. *)
Definition sniff (fs : node) (p : Path) : outcome string :=
  match open_text fs p with
  | Raise e => Raise e
  | Return chunks => read 1024 chunks
  end.

(** The tests of [is_file_searchable] that only look at the path. *)
Definition passes_path_rules (cfg : config) (p : Path) : Prop :=
  (forall d, In d (EXCLUDE_DIRECTORIES cfg) -> ~ exists rest, p = d ++ rest) /\
  (INCLUDE_FILE_TYPES cfg = [] \/ In (suffix p) (INCLUDE_FILE_TYPES cfg)) /\
  ~ In (suffix p) (EXCLUDE_FILE_TYPES cfg).

(** A tree in which the entries of every directory have distinct names. *)
Fixpoint unique_names (n : node) : Prop :=
  match n with
  | File _ => True
  | Directory entries =>
      NoDup (map fst entries) /\
      (fix all (es : list (string * node)) : Prop :=
         match es with
         | [] => True
         | (_, sub) :: es' => unique_names sub /\ all es'
         end) entries
  end.

(** On the way from [root] down to [root ++ rest], no directory below
    [root] and above the last part is an excluded directory. *)
Definition not_pruned (cfg : config) (root rest : Path) : Prop :=
  forall above below,
    rest = above ++ below -> above <> [] -> below <> [] ->
    ~ In (root ++ above) (EXCLUDE_DIRECTORIES cfg).

(** The order of the records of a file: by line, then by start. *)
Definition record_before (r1 r2 : match_record) : Prop :=
  line_of r1 < line_of r2 \/
  (line_of r1 = line_of r2 /\ start_of r1 < start_of r2).

(** A warning of the filter about one of [files] that is not searchable, and
    an error line of the scan of one of [files], with the exception that
    left the scan. *)
Definition warning_about (cfg : config) (fs : node) (files : list Path)
    (m : message) : Prop :=
  exists p e,
    In p files /\ searchable cfg fs p = false /\ e <> UnicodeDecodeError /\
    m = Warning_unable_to_read p e.

Definition error_about (re_other : string -> string -> outcome (list nat))
    (cfg : config) (fs : node) (files : list Path) (m : message) : Prop :=
  exists p e,
    In p files /\ snd (read_matches re_other cfg fs p) = Some e /\
    m = Error_reading_file p e.

(** The configuration without its excluded directories. *)
Definition without_exclusions (cfg : config) : config := {|
  SEARCH_TERM := SEARCH_TERM cfg;
  DIRECTORIES_TO_SEARCH := DIRECTORIES_TO_SEARCH cfg;
  EXCLUDE_DIRECTORIES := [];
  INCLUDE_FILE_TYPES := INCLUDE_FILE_TYPES cfg;
  EXCLUDE_FILE_TYPES := EXCLUDE_FILE_TYPES cfg;
  OUTPUT_CSV := OUTPUT_CSV cfg;
  NUM_THREADS := NUM_THREADS cfg
|}.

(** Two roots overlap when one is the other or lies below it. *)
Definition overlap (r1 r2 : Path) : Prop :=
  (exists rest, r2 = r1 ++ rest) \/ (exists rest, r1 = r2 ++ rest).

(** Two directories side by side, and a search from both. *)
Definition fs_two_dirs : node :=
  Directory
    [("a", Directory
        [("x.txt", File (Readable [Text ("say whatever" ++ nl)%string]))]);
     ("b", Directory
        [("x.txt", File (Readable [Text ("nothing here" ++ nl)%string]))])].

Definition separate_roots : config := {|
  SEARCH_TERM := "whatever";
  DIRECTORIES_TO_SEARCH := [ ["a"]; ["b"] ];
  EXCLUDE_DIRECTORIES := [];
  INCLUDE_FILE_TYPES := [];
  EXCLUDE_FILE_TYPES := [];
  OUTPUT_CSV := "search_results.csv";
  NUM_THREADS := 10
|}.

(** * Properties *)

(** ** Runs of the examples *)

Example starts_aa_aaa :
  option_map (fun pat => Re.starts pat "aaa") (Re.compile "aa") = Some [0].
Proof. reflexivity. Qed.

Example starts_empty_ab :
  option_map (fun pat => Re.starts pat "ab") (Re.compile "") = Some [0; 1; 2].
Proof. reflexivity. Qed.

Example main_a_txt :
  csvfile (snd (main fragment_only default_config fs_a_txt initial_world))
  = [fieldnames; ["a.txt"; "2"; "[(2, 0, 8), (3, 0, 8)]"]].
Proof. vm_compute. reflexivity. Qed.

Example main_late_invalid :
  main fragment_only default_config fs_late_invalid initial_world
  = (Return tt,
     {| results_dict := [("big.txt", [(1, 0, 8)])];
        stdout := [Total_files_collected 1; Total_searchable_files 1;
                   Error_reading_file ["big.txt"] UnicodeDecodeError;
                   Search_completed "search_results.csv"];
        csvfile := [fieldnames; ["big.txt"; "1"; "[(1, 0, 8)]"]] |}).
Proof. vm_compute. reflexivity. Qed.

Example main_binary :
  main fragment_only default_config fs_binary initial_world
  = (Return tt,
     {| results_dict := [("note.txt", [(1, 0, 8)])];
        stdout := [Total_files_collected 2; Total_searchable_files 1;
                   Search_completed "search_results.csv"];
        csvfile := [fieldnames; ["note.txt"; "1"; "[(1, 0, 8)]"]] |}).
Proof. vm_compute. reflexivity. Qed.

Example all_files_overlapping :
  all_files overlapping_roots fs_nested
  = [["top.txt"]; ["sub"; "x.txt"]; ["sub"; "x.txt"]].
Proof. reflexivity. Qed.

Example main_overlapping :
  csvfile (snd (main fragment_only overlapping_roots fs_nested initial_world))
  = [fieldnames; ["sub/x.txt"; "1"; "[(1, 4, 12)]"]].
Proof. vm_compute. reflexivity. Qed.

Example all_files_excluding :
  all_files excluding_sub fs_nested = [["top.txt"]].
Proof. reflexivity. Qed.

(** ** The monad and the dictionary *)

Lemma select_sound (f : Path -> M bool) (xs : list Path) :
  forall w l w',
    select f xs w = (Return l, w') ->
    forall x, In x l -> In x xs /\ exists w0 w1, f x w0 = (Return true, w1).
Proof.
  induction xs as [|y ys IH]; intros w l w' Hsel x Hin.
  - cbn in Hsel. inversion Hsel; subst. contradiction.
  - cbn in Hsel. unfold bind in Hsel.
    destruct (f y w) as [[b|e] w1] eqn:Hf; [|discriminate].
    destruct (select f ys w1) as [[rest|e] w2] eqn:Hrest; [|discriminate].
    cbn in Hsel. inversion Hsel; subst.
    destruct b.
    + destruct Hin as [<-|Hin].
      * split; [now left|]. now exists w, w1.
      * destruct (IH _ _ _ Hrest _ Hin) as [H1 H2]. split; [now right|exact H2].
    + destruct (IH _ _ _ Hrest _ Hin) as [H1 H2]. split; [now right|exact H2].
Qed.

Lemma excluded_not_searchable cfg fs (P d : Path) (w : world) :
  In d (EXCLUDE_DIRECTORIES cfg) ->
  is_relative_to P d = true ->
  is_file_searchable cfg fs P w = (Return false, w).
Proof.
  intros Hd Hrel. unfold is_file_searchable.
  assert (Hex : existsb (fun excl_dir => is_relative_to P excl_dir)
                        (EXCLUDE_DIRECTORIES cfg) = true).
  { apply existsb_exists. exists d. split; assumption. }
  rewrite Hex. reflexivity.
Qed.

Lemma bind_run {A B : Type} (m : M A) (f : A -> M B) (w : world) (a : A) :
  fst (m w) = Return a -> bind m f w = f a (snd (m w)).
Proof.
  unfold bind. destruct (m w) as [[a'|e] w']; cbn; intro H; [|discriminate].
  now inversion H.
Qed.

Lemma dict_set_keys {V : Type} (k : string) (v : V) (d : dict V) (k' : string) :
  In k' (keys (dict_set k v d)) <-> k' = k \/ In k' (keys d).
Proof.
  induction d as [|[k0 v0] d IH]; cbn.
  - intuition auto.
  - destruct (String.eqb_spec k k0) as [->|Hne]; cbn.
    + intuition auto.
    + rewrite IH. intuition auto.
Qed.

Lemma dict_set_NoDup {V : Type} (k : string) (v : V) (d : dict V) :
  NoDup (keys d) -> NoDup (keys (dict_set k v d)).
Proof.
  induction d as [|[k0 v0] d IH]; cbn; intro H.
  - constructor; [intros []|constructor].
  - inversion H as [|? ? Hnotin Hnd]; subst.
    destruct (String.eqb_spec k k0) as [->|Hne]; cbn.
    + now constructor.
    + constructor; [|now apply IH].
      intro Hin. apply dict_set_keys in Hin. destruct Hin as [->|Hin]; auto.
Qed.

Lemma dict_set_In {V : Type} (k : string) (v : V) (d : dict V) (k' : string) (v' : V) :
  In (k', v') (dict_set k v d) -> (k' = k /\ v' = v) \/ In (k', v') d.
Proof.
  induction d as [|[k0 v0] d IH]; cbn.
  - intros [H|[]]. inversion H. now left.
  - destruct (String.eqb_spec k k0) as [->|Hne]; cbn.
    + intros [H|H]; [inversion H; now left|right; now right].
    + intros [H|H]; [right; now left|].
      destruct (IH H) as [Hl|Hr]; [now left|right; now right].
Qed.

Lemma dict_get_set_same {V : Type} (k : string) (v : V) (d : dict V) :
  dict_get k (dict_set k v d) = Some v.
Proof.
  induction d as [|[k0 v0] d IH]; cbn.
  - now rewrite String.eqb_refl.
  - destruct (String.eqb_spec k k0) as [->|Hne]; cbn.
    + now rewrite String.eqb_refl.
    + destruct (String.eqb_spec k k0); [contradiction|exact IH].
Qed.

Lemma dict_get_set_other {V : Type} (k : string) (v : V) (d : dict V) (k' : string) :
  k' <> k -> dict_get k' (dict_set k v d) = dict_get k' d.
Proof.
  intro Hne. induction d as [|[k0 v0] d IH]; cbn.
  - destruct (String.eqb_spec k' k); [contradiction|reflexivity].
  - destruct (String.eqb_spec k k0) as [->|Hne0]; cbn.
    + destruct (String.eqb_spec k' k0); [contradiction|reflexivity].
    + destruct (String.eqb_spec k' k0); [reflexivity|exact IH].
Qed.

Lemma dict_set_twice {V : Type} (k : string) (v : V) (d : dict V) :
  dict_set k v (dict_set k v d) = dict_set k v d.
Proof.
  induction d as [|[k0 v0] d IH]; cbn.
  - now rewrite String.eqb_refl.
  - destruct (String.eqb_spec k k0) as [->|Hne]; cbn.
    + now rewrite String.eqb_refl.
    + destruct (String.eqb_spec k k0); [contradiction|now rewrite IH].
Qed.

Lemma NoDup_keys_NoDup {V : Type} (d : dict V) : NoDup (keys d) -> NoDup d.
Proof.
  induction d as [|[k v] d IH]; cbn; intro H; [constructor|].
  inversion H as [|? ? Hnotin Hnd]; subst. constructor; [|auto].
  intro Hin. apply Hnotin. unfold keys. now apply (in_map fst) in Hin.
Qed.

(** ** What the calls of the program do to the world *)

Section Runs.

Variable re_other : string -> string -> outcome (list nat).
Variable cfg : config.
Variable fs : node.

Lemma not_searchable_run (p : Path) (e : exn) (w : world) :
  fst (not_searchable p e w) = Return false /\
  results_dict (snd (not_searchable p e w)) = results_dict w /\
  csvfile (snd (not_searchable p e w)) = csvfile w.
Proof. destruct e; cbn; auto. Qed.

Lemma is_file_searchable_returns (p : Path) (w : world) :
  exists b, fst (is_file_searchable cfg fs p w) = Return b /\
            fst (is_file_searchable cfg fs p initial_world) = Return b.
Proof.
  unfold is_file_searchable.
  destruct (existsb _ _); [now exists false|].
  destruct (_ && _); [now exists false|].
  destruct (mem_string _ _); [now exists false|].
  destruct (open_text fs p) as [chunks|e].
  - destruct (read 1024 chunks) as [text|e]; [now exists true|].
    exists false. split; apply not_searchable_run.
  - exists false. split; apply not_searchable_run.
Qed.

Lemma is_file_searchable_run (p : Path) (w : world) :
  fst (is_file_searchable cfg fs p w) = Return (searchable cfg fs p) /\
  results_dict (snd (is_file_searchable cfg fs p w)) = results_dict w /\
  csvfile (snd (is_file_searchable cfg fs p w)) = csvfile w.
Proof.
  split.
  - destruct (is_file_searchable_returns p w) as (b & H1 & H2).
    unfold searchable. now rewrite H2.
  - unfold is_file_searchable.
    destruct (existsb _ _); [now cbn|].
    destruct (_ && _); [now cbn|].
    destruct (mem_string _ _); [now cbn|].
    destruct (open_text fs p) as [chunks|e].
    + destruct (read 1024 chunks) as [text|e]; [now cbn|apply not_searchable_run].
    + apply not_searchable_run.
Qed.

Lemma select_run (xs : list Path) :
  forall w,
    fst (select (is_file_searchable cfg fs) xs w)
    = Return (filter (searchable cfg fs) xs) /\
    results_dict (snd (select (is_file_searchable cfg fs) xs w)) = results_dict w /\
    csvfile (snd (select (is_file_searchable cfg fs) xs w)) = csvfile w.
Proof.
  induction xs as [|x xs IH]; intro w; [now cbn|].
  cbn [select filter].
  destruct (is_file_searchable_run x w) as (Hb & Hd & Hc).
  rewrite (bind_run _ _ _ _ Hb).
  destruct (IH (snd (is_file_searchable cfg fs x w))) as (Hl & Hd' & Hc').
  rewrite (bind_run _ _ _ _ Hl). cbn.
  rewrite Hd', Hc', Hd, Hc.
  destruct (searchable cfg fs x); auto.
Qed.

Lemma report_error_run (p : Path) (raised : option exn) (w : world) :
  fst (report_error p raised w) = Return tt /\
  results_dict (snd (report_error p raised w)) = results_dict w /\
  csvfile (snd (report_error p raised w)) = csvfile w /\
  stdout (snd (report_error p raised w))
  = stdout w ++ match raised with
                | Some e => [Error_reading_file p e]
                | None => []
                end.
Proof. destruct raised; cbn; auto using app_nil_r. Qed.

Lemma record_run (key : string) (local_results : list match_record) (w : world) :
  fst (record key local_results w) = Return tt /\
  results_dict (snd (record key local_results w))
  = match local_results with
    | [] => results_dict w
    | _ :: _ => dict_set key local_results (results_dict w)
    end /\
  csvfile (snd (record key local_results w)) = csvfile w /\
  stdout (snd (record key local_results w)) = stdout w.
Proof. destruct local_results; cbn; auto. Qed.

Lemma search_file_run (p : Path) (w : world) :
  fst (search_file re_other cfg fs p w) = Return tt /\
  results_dict (snd (search_file re_other cfg fs p w))
  = scan_into re_other cfg fs (results_dict w) p /\
  csvfile (snd (search_file re_other cfg fs p w)) = csvfile w /\
  stdout (snd (search_file re_other cfg fs p w))
  = stdout w ++ match snd (read_matches re_other cfg fs p) with
                | Some e => [Error_reading_file p e]
                | None => []
                end.
Proof.
  unfold search_file, scan_into.
  destruct (read_matches re_other cfg fs p) as [local_results raised]. cbn [fst snd].
  destruct (report_error_run p raised w) as (H1 & H2 & H3 & H4).
  rewrite (bind_run _ _ _ _ H1).
  destruct (record_run (str_path p) local_results (snd (report_error p raised w)))
    as (K1 & K2 & K3 & K4).
  rewrite K1, K2, K3, K4, H2, H3, H4.
  destruct local_results; auto.
Qed.

Lemma for_each_run (files : list Path) :
  forall w,
    fst (for_each (search_file re_other cfg fs) files w) = Return tt /\
    results_dict (snd (for_each (search_file re_other cfg fs) files w))
    = fold_left (scan_into re_other cfg fs) files (results_dict w) /\
    csvfile (snd (for_each (search_file re_other cfg fs) files w)) = csvfile w.
Proof.
  induction files as [|p files IH]; intro w; [now cbn|].
  cbn [for_each fold_left].
  destruct (search_file_run p w) as (H1 & H2 & H3 & _).
  rewrite (bind_run _ _ _ _ H1).
  destruct (IH (snd (search_file re_other cfg fs p w))) as (K1 & K2 & K3).
  now rewrite K1, K2, K3, H2, H3.
Qed.

Lemma filter_phase_run (completed : list Path) (w : world) :
  fst (filter_phase cfg fs completed w)
  = Return (filter (searchable cfg fs) completed) /\
  results_dict (snd (filter_phase cfg fs completed w)) = results_dict w /\
  csvfile (snd (filter_phase cfg fs completed w)) = csvfile w.
Proof.
  unfold filter_phase.
  rewrite (bind_run (print _) _ w tt eq_refl).
  set (w1 := snd (print (Total_files_collected (List.length (all_files cfg fs))) w)).
  destruct (select_run completed w1) as (H1 & H2 & H3).
  rewrite (bind_run _ _ _ _ H1).
  set (w2 := snd (select (is_file_searchable cfg fs) completed w1)) in *.
  rewrite (bind_run (print _) _ w2 tt eq_refl).
  cbn. rewrite H2, H3. auto.
Qed.

Lemma report_phase_run (w : world) :
  fst (report_phase cfg w) = Return tt /\
  results_dict (snd (report_phase cfg w)) = results_dict w /\
  csvfile (snd (report_phase cfg w)) = fieldnames :: map report_row (results_dict w).
Proof. cbn. auto. Qed.

(** [main] never raises; its report is the header and one row per item of
    [results_dict], which holds what the scans of the searchable files
    recorded, in turn. *)
Lemma main_run (w : world) :
  fst (main re_other cfg fs w) = Return tt /\
  results_dict (snd (main re_other cfg fs w))
  = fold_left (scan_into re_other cfg fs)
              (filter (searchable cfg fs) (all_files cfg fs)) (results_dict w) /\
  csvfile (snd (main re_other cfg fs w))
  = fieldnames :: map report_row (results_dict (snd (main re_other cfg fs w))).
Proof.
  unfold main.
  destruct (filter_phase_run (all_files cfg fs) w) as (H1 & H2 & H3).
  rewrite (bind_run _ _ _ _ H1).
  set (w1 := snd (filter_phase cfg fs (all_files cfg fs) w)) in *.
  destruct (for_each_run (filter (searchable cfg fs) (all_files cfg fs)) w1)
    as (K1 & K2 & K3).
  rewrite (bind_run _ _ _ _ K1).
  set (w2 := snd (for_each _ _ w1)) in *.
  destruct (report_phase_run w2) as (R1 & R2 & R3).
  rewrite R1, R2, R3, K2, H2. auto.
Qed.

End Runs.

(** ** Directory exclusion *)

(** C7: a path that is relative to a configured excluded directory (the
    excluded directory is the path or one of its parents, part by part) is
    never searchable, whatever its suffix and whatever the file system
    holds there; nothing is printed about it, and it is in no list that the
    filter phase selects, whatever the order of the candidates. *)
Theorem C7_excluded_directory_never_searchable
    cfg fs (P d : Path) :
  In d (EXCLUDE_DIRECTORIES cfg) ->
  is_relative_to P d = true ->
  (forall w, is_file_searchable cfg fs P w = (Return false, w)) /\
  (forall candidates w files w',
      select (is_file_searchable cfg fs) candidates w = (Return files, w') ->
      ~ In P files).
Proof.
  intros Hd Hrel. split.
  - intro w. now apply excluded_not_searchable with (d := d).
  - intros candidates w files w' Hsel Hin.
    destruct (select_sound _ _ _ _ _ Hsel _ Hin) as [_ (w0 & w1 & Hf)].
    rewrite (excluded_not_searchable cfg fs P d w0 Hd Hrel) in Hf.
    discriminate.
Qed.

Lemma C7_witness :
  In ["sub"] (EXCLUDE_DIRECTORIES excluding_sub) /\
  is_relative_to ["sub"; "x.txt"] ["sub"] = true /\
  is_file_searchable excluding_sub fs_nested ["sub"; "x.txt"] initial_world
  = (Return false, initial_world).
Proof.
  split; [now left|]. split; [reflexivity|].
  apply (proj1 (C7_excluded_directory_never_searchable
                  excluding_sub fs_nested ["sub"; "x.txt"] ["sub"]
                  (or_introl eq_refl) eq_refl)).
Defined.

(** ** The matches of one line *)

Lemma compile_literal (term : string) :
  Re.is_literal term = true -> Re.compile term = Some (lits term).
Proof.
  induction term as [|c term IH]; cbn; [reflexivity|].
  intro H. apply andb_prop in H. destruct H as [Hc Hl].
  rewrite (IH Hl).
  destruct (Ascii.eqb_spec c "."%char) as [->|_]; [discriminate Hc|].
  apply negb_true_iff in Hc. now rewrite Hc.
Qed.

Lemma lits_length (term : string) : List.length (lits term) = String.length term.
Proof. induction term; cbn; congruence. Qed.

Lemma compile_length (term : string) :
  forall pat, Re.compile term = Some pat -> List.length pat = String.length term.
Proof.
  induction term as [|c term IH]; cbn [Re.compile String.length]; intros pat H.
  - now inversion H.
  - destruct (Re.compile term) as [atoms|]; [|discriminate].
    destruct (Ascii.eqb c "."%char).
    + inversion H. cbn [List.length]. now rewrite (IH atoms).
    + destruct (Re.is_meta c); [discriminate|].
      inversion H. cbn [List.length]. now rewrite (IH atoms).
Qed.

Lemma match_here_literal (term s : string) :
  Re.match_here (lits term) s
  = ci_equal term (substring 0 (String.length term) s).
Proof.
  revert s. induction term as [|c term IH]; intro s.
  - destruct s; reflexivity.
  - destruct s as [|d s]; cbn; [reflexivity|]. now rewrite IH.
Qed.

Lemma match_here_length (pat : Re.pattern) :
  forall s, Re.match_here pat s = true -> List.length pat <= String.length s.
Proof.
  induction pat as [|a pat IH]; intros s H; cbn; [lia|].
  destruct s as [|c s]; cbn in *; [discriminate|].
  apply andb_prop in H. destruct H as [_ H]. apply IH in H. lia.
Qed.

Lemma substring_drop (p n : nat) (s : string) :
  substring p n s = substring 0 n (drop p s).
Proof.
  revert s. induction p as [|p IH]; intro s; [reflexivity|].
  destruct s as [|c s]; cbn.
  - destruct n; reflexivity.
  - apply IH.
Qed.

Lemma drop_length (p : nat) (s : string) :
  String.length (drop p s) = String.length s - p.
Proof.
  revert s. induction p as [|p IH]; intro s; cbn; [lia|].
  destruct s as [|c s]; cbn; [reflexivity|apply IH].
Qed.

Lemma drop_step (q pos : nat) (c : ascii) (s : string) :
  S pos <= q -> drop (q - pos) (String c s) = drop (q - S pos) s.
Proof.
  intro H. replace (q - pos) with (S (q - S pos)) by lia. reflexivity.
Qed.

Lemma StronglySorted_map {A B : Type} (R : A -> A -> Prop) (R' : B -> B -> Prop)
    (f : A -> B) (l : list A) :
  (forall x y, R x y -> R' (f x) (f y)) ->
  StronglySorted R l -> StronglySorted R' (map f l).
Proof.
  intros Hf H. induction H as [|a l Hl IH Ha]; cbn; constructor; [exact IH|].
  apply Forall_forall. intros y Hy. apply in_map_iff in Hy.
  destruct Hy as (x & <- & Hx). apply Hf.
  rewrite Forall_forall in Ha. now apply Ha.
Qed.

Section Scan.

Variable pat : Re.pattern.

(** Every start that the scan reports is a position of the string, past the
    characters to skip, where the pattern matches. *)
Lemma scan_sound (s : string) :
  forall skip pos q,
    In q (Re.scan pat skip pos s) ->
    pos + skip <= q /\ q <= pos + String.length s /\
    Re.match_here pat (drop (q - pos) s) = true.
Proof.
  induction s as [|c s IH]; intros skip pos q Hin.
  - destruct skip as [|k]; cbn in Hin; [|contradiction].
    destruct (Re.match_here pat "") eqn:Hm; [|contradiction].
    destruct Hin as [<-|[]]. rewrite Nat.sub_diag. cbn [drop String.length].
    repeat split; try lia. exact Hm.
  - destruct skip as [|k]; cbn [Re.scan] in Hin.
    + destruct (Re.match_here pat (String c s)) eqn:Hm.
      * destruct Hin as [<-|Hin].
        -- rewrite Nat.sub_diag. cbn [drop String.length].
           repeat split; try lia. exact Hm.
        -- apply IH in Hin. destruct Hin as (H1 & H2 & H3).
           cbn [String.length]. rewrite drop_step by lia.
           repeat split; try lia. exact H3.
      * apply IH in Hin. destruct Hin as (H1 & H2 & H3).
        cbn [String.length]. rewrite drop_step by lia.
        repeat split; try lia. exact H3.
    + apply IH in Hin. destruct Hin as (H1 & H2 & H3).
      cbn [String.length]. rewrite drop_step by lia.
      repeat split; try lia. exact H3.
Qed.

(** Two reported matches never overlap. *)
Lemma scan_gap (s : string) :
  forall skip pos r q,
    In r (Re.scan pat skip pos s) ->
    In q (Re.scan pat skip pos s) ->
    r < q -> r + List.length pat <= q.
Proof.
  induction s as [|c s IH]; intros skip pos r q Hr Hq Hlt.
  - destruct skip as [|k]; cbn in Hr, Hq; [|contradiction].
    destruct (Re.match_here pat ""); [|contradiction].
    destruct Hr as [<-|[]]. destruct Hq as [<-|[]]. lia.
  - destruct skip as [|k]; cbn [Re.scan] in Hr, Hq.
    + destruct (Re.match_here pat (String c s)).
      * destruct Hr as [<-|Hr]; destruct Hq as [<-|Hq].
        -- lia.
        -- apply scan_sound in Hq. lia.
        -- apply scan_sound in Hr. lia.
        -- exact (IH _ _ _ _ Hr Hq Hlt).
      * exact (IH _ _ _ _ Hr Hq Hlt).
    + exact (IH _ _ _ _ Hr Hq Hlt).
Qed.


(** A position where the pattern matches is reported, unless it lies inside
    a match that was reported before. *)
Lemma scan_complete (s : string) :
  forall skip pos q,
    pos + skip <= q -> q <= pos + String.length s ->
    Re.match_here pat (drop (q - pos) s) = true ->
    (forall r, In r (Re.scan pat skip pos s) -> r < q -> r + List.length pat <= q) ->
    In q (Re.scan pat skip pos s).
Proof.
  induction s as [|c s IH]; intros skip pos q Hlo Hhi Hm Hfree.
  - cbn [String.length] in Hhi.
    assert (q = pos) by lia. assert (skip = 0) by lia. subst.
    rewrite Nat.sub_diag in Hm. cbn in Hm. cbn. rewrite Hm. now left.
  - cbn [String.length] in Hhi.
    destruct skip as [|k]; cbn [Re.scan] in *.
    + destruct (Nat.eq_dec q pos) as [->|Hne].
      * rewrite Nat.sub_diag in Hm. cbn [drop] in Hm. rewrite Hm. now left.
      * rewrite drop_step in Hm by lia.
        destruct (Re.match_here pat (String c s)).
        -- right. apply IH; try lia; try exact Hm.
           ++ specialize (Hfree pos (or_introl eq_refl)). lia.
           ++ intros r Hr. apply Hfree. now right.
        -- apply IH; try lia; assumption.
    + rewrite drop_step in Hm by lia.
      apply IH; try lia; assumption.
Qed.

End Scan.

Lemma occurs_at_literal (term line : string) (p : nat) :
  occurs_at term line p <->
  p <= String.length line /\ Re.match_here (lits term) (drop p line) = true.
Proof.
  unfold occurs_at. now rewrite match_here_literal, <- substring_drop.
Qed.

(** The starts of the matches of a term without special characters: the
    occurrences that no earlier match covers. *)
Lemma starts_literal (term line : string) (p : nat) :
  In p (Re.starts (lits term) line) <->
  occurs_at term line p /\
  (forall s, In s (Re.starts (lits term) line) -> s < p ->
             s + String.length term <= p).
Proof.
  unfold Re.starts. rewrite occurs_at_literal. split.
  - intro Hin. pose proof (scan_sound _ _ _ _ _ Hin) as (H1 & H2 & H3).
    rewrite Nat.sub_0_r in H3. split; [split; [lia|exact H3]|].
    intros s Hs Hlt. rewrite <- lits_length.
    exact (scan_gap _ _ _ _ _ _ Hs Hin Hlt).
  - intros [[Hle Hm] Hfree]. apply scan_complete; try lia.
    + now rewrite Nat.sub_0_r.
    + intros r Hr Hlt. rewrite lits_length. now apply Hfree.
Qed.


Lemma line_records_fragment re_other cfg (pat : Re.pattern) (n : nat) (line : string) :
  Re.compile (SEARCH_TERM cfg) = Some pat ->
  line_records re_other cfg n line
  = Return (map (fun pos => (n, pos, pos + String.length (SEARCH_TERM cfg)))
                (Re.starts pat line)).
Proof.
  intro H. unfold line_records, occurrences. now rewrite H.
Qed.

Lemma starts_of_records (n len : nat) (occ : list nat) :
  map start_of (map (fun pos => (n, pos, pos + len)) occ) = occ.
Proof.
  rewrite map_map. cbn. apply map_id.
Qed.

Lemma line_records_shape re_other cfg (n : nat) (line : string) (found : list match_record) :
  line_records re_other cfg n line = Return found ->
  forall r, In r found ->
    line_of r = n /\ end_of r = start_of r + String.length (SEARCH_TERM cfg).
Proof.
  unfold line_records. intros H r Hin.
  destruct (occurrences re_other (SEARCH_TERM cfg) line) as [occ|e]; [|discriminate].
  inversion H; subst. apply in_map_iff in Hin. destruct Hin as (pos & <- & _).
  split; reflexivity.
Qed.




(** C5 (amended): for every search term without special characters and
    every line, a match is recorded at position p exactly when the term,
    compared character by character up to case, equals the substring of
    the line of the length of the term that starts at p, and p lies in no
    match recorded before it on the line.  Scanning the line Whatever for
    the term whatever yields exactly one match, with start 0 and end 8. *)
Theorem C5_matches_of_a_term_without_special_characters
    re_other cfg (n : nat) (line : string) :
  Re.is_literal (SEARCH_TERM cfg) = true ->
  exists records,
    line_records re_other cfg n line = Return records /\
    (forall p, In p (map start_of records) <->
       occurs_at (SEARCH_TERM cfg) line p /\
       (forall s, In s (map start_of records) -> s < p ->
                  s + String.length (SEARCH_TERM cfg) <= p)) /\
    line_records re_other (with_term "whatever") n "Whatever" = Return [(n, 0, 8)].
Proof.
  intro Hlit. pose proof (compile_literal _ Hlit) as Hc.
  eexists. split; [exact (line_records_fragment re_other cfg _ n line Hc)|].
  split; [|reflexivity].
  intro p. rewrite starts_of_records. apply starts_literal.
Qed.

Lemma C5_witness :
  Re.is_literal (SEARCH_TERM (with_term "aba")) = true /\
  exists records,
    line_records fragment_only (with_term "aba") 1 "xABAbab" = Return records /\
    forall p, In p (map start_of records) <->
      occurs_at "aba" "xABAbab" p /\
      (forall s, In s (map start_of records) -> s < p -> s + 3 <= p).
Proof.
  split; [reflexivity|].
  destruct (C5_matches_of_a_term_without_special_characters
              fragment_only (with_term "aba") 1 "xABAbab" eq_refl)
    as (records & Hrec & Hiff & _).
  exists records. split; [exact Hrec|exact Hiff].
Defined.

(** The dot of the term a.c matches the b of abc, so a match is recorded
    where the term does not occur; and aba occurs in ababa at 2, inside the
    match recorded at 0, where none is recorded. *)
Lemma C5_counterexample :
  (line_records fragment_only (with_term "a.c") 1 "abc" = Return [(1, 0, 3)] /\
   ci_equal "a.c" (substring 0 3 "abc") = false) /\
  (line_records fragment_only (with_term "aba") 1 "ababa" = Return [(1, 0, 3)] /\
   ci_equal "aba" (substring 2 3 "ababa") = true).
Proof.
  repeat split; reflexivity.
Qed.

(** ** The matches of one file *)

Section Files.

Variable re_other : string -> string -> outcome (list nat).
Variable cfg : config.
Variable fs : node.

(** Whatever the loop holds when it is left was there before or was found
    on one of the lines, numbered from the line after [line_number]. *)
Lemma scan_lines_In (lines : list string) :
  forall line_number local_results r,
    In r (fst (scan_lines re_other cfg line_number local_results lines)) ->
    In r local_results \/
    exists i line found,
      nth_error lines i = Some line /\
      line_records re_other cfg (line_number + i + 1) line = Return found /\
      In r found.
Proof.
  induction lines as [|line rest IH]; intros k acc r Hin; cbn in Hin.
  - now left.
  - destruct (line_records re_other cfg (k + 1) line) as [found|e] eqn:Hrec.
    + apply IH in Hin. destruct Hin as [Hin|(i & l & f & Hnth & Hf & Hr)].
      * apply in_app_or in Hin. destruct Hin as [Hin|Hin]; [now left|].
        right. exists 0, line, found. rewrite Nat.add_0_r. auto.
      * right. exists (S i), l, f.
        replace (k + S i + 1) with (k + 1 + i + 1) by lia. auto.
    + now left.
Qed.

Lemma read_matches_fst (p : Path) :
  fst (read_matches re_other cfg fs p)
  = match open_text fs p with
    | Raise _ => []
    | Return chunks =>
        fst (scan_lines re_other cfg 0 [] (fst (iter_lines "" chunks)))
    end.
Proof.
  unfold read_matches. destruct (open_text fs p) as [chunks|e]; [|reflexivity].
  destruct (iter_lines "" chunks) as [lines broken]. cbn [fst].
  destruct (scan_lines re_other cfg 0 [] lines) as [found [e|]]; reflexivity.
Qed.

Lemma read_matches_In (p : Path) (r : match_record) :
  In r (fst (read_matches re_other cfg fs p)) ->
  exists chunks i line found,
    open_text fs p = Return chunks /\
    nth_error (fst (iter_lines "" chunks)) i = Some line /\
    line_records re_other cfg (i + 1) line = Return found /\
    In r found.
Proof.
  rewrite read_matches_fst.
  destruct (open_text fs p) as [chunks|e]; [|intros []].
  intro Hin. apply scan_lines_In in Hin.
  destruct Hin as [[]|(i & line & found & H1 & H2 & H3)].
  exists chunks, i, line, found. auto.
Qed.

End Files.

(** C8 (amended): every match record that the scanner produces has a line
    number of at least 1 and an end offset equal to its start offset plus
    the length of the search term (offsets are natural numbers, so the
    start is at least 0); its end is greater than its start when the search
    term is not empty.  For a term of the modelled fragment the record lies
    within the line it numbers: the end offset is at most the number of
    characters of that decoded line. *)
Theorem C8_match_record_shape
    re_other cfg fs (p : Path) (r : match_record) :
  In r (fst (read_matches re_other cfg fs p)) ->
  1 <= line_of r /\
  end_of r = start_of r + String.length (SEARCH_TERM cfg) /\
  (SEARCH_TERM cfg <> "" -> start_of r < end_of r) /\
  (forall pat, Re.compile (SEARCH_TERM cfg) = Some pat ->
     exists chunks line,
       open_text fs p = Return chunks /\
       nth_error (fst (iter_lines "" chunks)) (line_of r - 1) = Some line /\
       end_of r <= String.length line).
Proof.
  intro Hin. apply read_matches_In in Hin.
  destruct Hin as (chunks & i & line & found & Hopen & Hnth & Hrec & Hr).
  destruct (line_records_shape _ _ _ _ _ Hrec r Hr) as [Hn He].
  split; [lia|]. split; [exact He|]. split.
  - intro Hne. rewrite He.
    destruct (SEARCH_TERM cfg) as [|c t]; [contradiction|]. cbn. lia.
  - intros pat Hc. exists chunks, line. split; [exact Hopen|].
    split; [now replace (line_of r - 1) with i by lia|].
    rewrite (line_records_fragment re_other cfg pat _ line Hc) in Hrec.
    inversion Hrec; subst found.
    apply (in_map start_of) in Hr. rewrite starts_of_records in Hr.
    apply scan_sound in Hr. destruct Hr as (_ & Hle & Hm).
    apply match_here_length in Hm.
    rewrite drop_length, (compile_length _ _ Hc), Nat.sub_0_r in Hm. lia.
Qed.

Lemma C8_witness :
  In (1, 0, 8) (fst (read_matches fragment_only default_config fs_binary ["note.txt"])) /\
  1 <= line_of (1, 0, 8) /\
  end_of (1, 0, 8) = start_of (1, 0, 8) + String.length (SEARCH_TERM default_config) /\
  (SEARCH_TERM default_config <> "" -> start_of (1, 0, 8) < end_of (1, 0, 8)).
Proof.
  split; [now left|].
  destruct (C8_match_record_shape fragment_only default_config fs_binary
              ["note.txt"] (1, 0, 8) (or_introl eq_refl))
    as (H1 & H2 & H3 & _).
  split; [exact H1|]. split; [exact H2|exact H3].
Defined.

(** With the empty search term, a record is produced at every position of
    the line, and its end equals its start. *)
Lemma C8_counterexample :
  In (1, 0, 0) (fst (read_matches fragment_only (with_term "") fs_binary ["note.txt"])) /\
  end_of (1, 0, 0) = start_of (1, 0, 0).
Proof.
  split; [now left|reflexivity].
Qed.

(** ** Read errors during the scan *)

(** C2 (amended): if an exception leaves the scan of a file, the error is
    logged, no exception leaves [search_file], and the scan contributes the
    matches found on the lines that were read before the error: an entry is
    recorded for them when there are any, and the store stays as it was
    when there are none, in particular whenever the file cannot be
    opened. *)
Theorem C2_read_error_keeps_the_matches_found_before
    re_other cfg fs (p : Path) (e : exn) (w : world) :
  snd (read_matches re_other cfg fs p) = Some e ->
  fst (search_file re_other cfg fs p w) = Return tt /\
  stdout (snd (search_file re_other cfg fs p w))
  = stdout w ++ [Error_reading_file p e] /\
  results_dict (snd (search_file re_other cfg fs p w))
  = match fst (read_matches re_other cfg fs p) with
    | [] => results_dict w
    | (_ :: _) as found => dict_set (str_path p) found (results_dict w)
    end /\
  fst (read_matches re_other cfg fs p)
  = match open_text fs p with
    | Raise _ => []
    | Return chunks =>
        fst (scan_lines re_other cfg 0 [] (fst (iter_lines "" chunks)))
    end /\
  (forall e0, open_text fs p = Raise e0 ->
     results_dict (snd (search_file re_other cfg fs p w)) = results_dict w).
Proof.
  intro Hraised.
  destruct (search_file_run re_other cfg fs p w) as (H1 & H2 & _ & H4).
  rewrite Hraised in H4.
  split; [exact H1|]. split; [exact H4|]. split; [exact H2|].
  split; [apply read_matches_fst|].
  intros e0 Hopen. rewrite H2. unfold scan_into.
  now rewrite read_matches_fst, Hopen.
Qed.

Lemma C2_witness :
  snd (read_matches fragment_only default_config fs_binary ["blob.bin"])
  = Some UnicodeDecodeError /\
  fst (search_file fragment_only default_config fs_binary ["blob.bin"] initial_world)
  = Return tt /\
  stdout (snd (search_file fragment_only default_config fs_binary ["blob.bin"]
                 initial_world))
  = stdout initial_world ++ [Error_reading_file ["blob.bin"] UnicodeDecodeError].
Proof.
  split; [reflexivity|].
  destruct (C2_read_error_keeps_the_matches_found_before
              fragment_only default_config fs_binary ["blob.bin"]
              UnicodeDecodeError initial_world eq_refl)
    as (H1 & H2 & _).
  split; [exact H1|exact H2].
Defined.

(** The second chunk of the file does not decode: the scan ends by that
    error, and the match of the first line is recorded all the same. *)
Lemma C2_counterexample :
  snd (read_matches fragment_only default_config fs_late_invalid ["big.txt"])
  = Some UnicodeDecodeError /\
  results_dict
    (snd (search_file fragment_only default_config fs_late_invalid ["big.txt"]
            initial_world))
  = [("big.txt", [(1, 0, 8)])].
Proof.
  split; vm_compute; reflexivity.
Qed.

(** ** Paths and their strings *)

Lemma append_cancel_part (x : string) :
  forall y r1 r2,
    no_slash x -> no_slash y -> slash_or_end r1 -> slash_or_end r2 ->
    (x ++ r1)%string = (y ++ r2)%string -> x = y /\ r1 = r2.
Proof.
  unfold no_slash.
  induction x as [|c x IH]; intros y r1 r2 Hx Hy H1 H2 Heq.
  - destruct y as [|d y]; cbn in Heq; [now split|].
    subst r1. cbn in H1. subst d. cbn in Hy. discriminate Hy.
  - destruct y as [|d y]; cbn in Heq.
    + subst r2. cbn in H2. subst c. cbn in Hx. discriminate Hx.
    + injection Heq as Hcd Hrest. subst d. cbn [Re.mem_char] in Hx, Hy.
      apply orb_false_elim in Hx. apply orb_false_elim in Hy.
      destruct (IH y r1 r2 (proj2 Hx) (proj2 Hy) H1 H2 Hrest) as [-> ->].
      now split.
Qed.

Lemma concat_cons (x : string) (l : list string) :
  String.concat "/" (x :: l) = (x ++ after_first l)%string.
Proof.
  destruct l as [|y l]; cbn [String.concat after_first]; [|reflexivity].
  induction x as [|c x IH]; cbn; [reflexivity|now rewrite <- IH].
Qed.

Lemma after_first_slash_or_end (l : list string) : slash_or_end (after_first l).
Proof. destruct l; cbn; auto. Qed.

Lemma part_ok_no_slash (c : string) : part_ok c = true -> no_slash c.
Proof.
  unfold part_ok, no_slash. intro H. apply andb_prop in H.
  destruct H as [H _]. now apply negb_true_iff in H.
Qed.

Lemma concat_inj (l1 : list string) :
  forall l2,
    Forall no_slash l1 -> Forall no_slash l2 ->
    l1 <> [] -> l2 <> [] ->
    String.concat "/" l1 = String.concat "/" l2 -> l1 = l2.
Proof.
  induction l1 as [|x l1 IH]; intros l2 H1 H2 N1 N2 Heq; [contradiction|].
  destruct l2 as [|y l2]; [contradiction|].
  rewrite !concat_cons in Heq.
  inversion H1 as [|? ? Hx H1']; inversion H2 as [|? ? Hy H2']; subst.
  destruct (append_cancel_part _ _ _ _ Hx Hy
              (after_first_slash_or_end l1) (after_first_slash_or_end l2) Heq)
    as [-> Hrest].
  f_equal.
  destruct l1 as [|a l1]; destruct l2 as [|b l2]; cbn in Hrest;
    try reflexivity; try discriminate.
  inversion Hrest as [Hc]. apply IH; auto; discriminate.
Qed.

(** On well-formed paths, [str] is one to one. *)
Lemma str_path_inj (p q : Path) :
  well_formed p -> well_formed q -> str_path p = str_path q -> p = q.
Proof.
  unfold well_formed. intros Hp Hq Heq.
  assert (Hdot : forall c l, Forall (fun c => part_ok c = true) (c :: l) ->
                             String.concat "/" (c :: l) <> ".").
  { intros c l Hcl H. rewrite concat_cons in H.
    inversion Hcl as [|? ? Hc _]; subst.
    destruct (append_cancel_part c "." (after_first l) "") as [-> _].
    - now apply part_ok_no_slash.
    - reflexivity.
    - apply after_first_slash_or_end.
    - exact I.
    - exact H.
    - discriminate Hc. }
  assert (Hns : forall l, Forall (fun c => part_ok c = true) l -> Forall no_slash l).
  { intros l Hl. eapply Forall_impl; [|exact Hl]. apply part_ok_no_slash. }
  destruct p as [|c p]; destruct q as [|d q]; cbn [str_path] in Heq.
  - reflexivity.
  - symmetry in Heq. now apply Hdot in Heq.
  - now apply Hdot in Heq.
  - apply concat_inj; auto; discriminate.
Qed.

(** The traversal of a tree with proper names, from well-formed roots, only
    yields well-formed paths. *)
Lemma well_formed_joinpath (root : Path) (nm : string) :
  well_formed root -> part_ok nm = true -> well_formed (joinpath root nm).
Proof.
  intros H1 H2. apply Forall_app. split; [exact H1|]. now constructor.
Qed.

Lemma walk_well_formed cfg (n : node) :
  forall root, names_ok n -> well_formed root ->
               Forall well_formed (walk cfg root n).
Proof.
  induction n as [f|entries IHn] using node_induction;
    intros root Hok Hroot; [constructor|].
  cbn [walk]. apply Forall_app. split.
  - clear IHn. cbn [names_ok] in Hok.
    induction entries as [|[nm sub] es IH]; [constructor|].
    destruct Hok as (Hnm & _ & Hes). unfold file_names in *. cbn [flat_map].
    rewrite map_app. apply Forall_app. split; [|now apply IH].
    destruct sub; cbn; [|constructor].
    constructor; [|constructor]. now apply well_formed_joinpath.
  - cbn [names_ok] in Hok.
    induction entries as [|[nm sub] es IH]; [constructor|].
    destruct Hok as (Hnm & Hsub & Hes).
    inversion IHn as [|? ? Hhere Hrest]; subst.
    apply Forall_app. split; [|now apply IH].
    destruct sub as [f|sub_entries]; [constructor|].
    destruct (mem_path _ _); [constructor|].
    apply Hhere; [exact Hsub|now apply well_formed_joinpath].
Qed.

Lemma lookup_names_ok (p : Path) :
  forall n m, names_ok n -> lookup n p = Some m -> names_ok m.
Proof.
  induction p as [|c p IH]; intros n m Hok Hl; cbn in Hl.
  - now inversion Hl; subst.
  - destruct n as [f|entries]; [discriminate|].
    destruct (find_entry c entries) as [sub|] eqn:Hf; [|discriminate].
    apply (IH sub m); [|exact Hl].
    clear Hl IH. cbn [names_ok] in Hok.
    induction entries as [|[nm e] es IHe]; cbn in Hf; [discriminate|].
    destruct Hok as (_ & He & Hes).
    destruct (String.eqb c nm); [now inversion Hf; subst|auto].
Qed.

Lemma all_files_well_formed cfg fs :
  names_ok fs -> Forall well_formed (DIRECTORIES_TO_SEARCH cfg) ->
  Forall well_formed (all_files cfg fs).
Proof.
  intros Hok Hroots. unfold all_files.
  induction (DIRECTORIES_TO_SEARCH cfg) as [|r rs IH]; [constructor|].
  inversion Hroots as [|? ? Hr Hrs]; subst. cbn [flat_map].
  apply Forall_app. split; [|now apply IH].
  unfold collect_files. destruct (lookup fs r) as [n|] eqn:Hl; [|constructor].
  apply walk_well_formed; [|exact Hr]. exact (lookup_names_ok _ _ _ Hok Hl).
Qed.

(** ** The store *)

Section Store.

Variable re_other : string -> string -> outcome (list nat).
Variable cfg : config.
Variable fs : node.

Lemma scan_into_In (d : dict (list match_record)) (p : Path) k v :
  In (k, v) (scan_into re_other cfg fs d p) ->
  In (k, v) d \/ (k = str_path p /\ v = fst (read_matches re_other cfg fs p) /\ v <> []).
Proof.
  unfold scan_into. destruct (fst (read_matches re_other cfg fs p)) as [|m ms] eqn:Hm.
  - now left.
  - intro Hin. apply dict_set_In in Hin. destruct Hin as [[-> ->]|Hin]; [|now left].
    right. repeat split; discriminate.
Qed.

Lemma scan_into_keeps_keys (d : dict (list match_record)) (p : Path) k :
  In k (keys d) -> In k (keys (scan_into re_other cfg fs d p)).
Proof.
  unfold scan_into. destruct (fst (read_matches re_other cfg fs p)); [auto|].
  intro H. apply dict_set_keys. now right.
Qed.

Lemma scan_into_adds_key (d : dict (list match_record)) (p : Path) :
  fst (read_matches re_other cfg fs p) <> [] -> In (str_path p) (keys (scan_into re_other cfg fs d p)).
Proof.
  unfold scan_into. destruct (fst (read_matches re_other cfg fs p)); [contradiction|].
  intros _. apply dict_set_keys. now left.
Qed.

Lemma scan_into_NoDup (d : dict (list match_record)) (p : Path) :
  NoDup (keys d) -> NoDup (keys (scan_into re_other cfg fs d p)).
Proof.
  unfold scan_into. destruct (fst (read_matches re_other cfg fs p)); [auto|].
  apply dict_set_NoDup.
Qed.

Lemma scan_into_twice (d : dict (list match_record)) (p : Path) :
  scan_into re_other cfg fs (scan_into re_other cfg fs d p) p
  = scan_into re_other cfg fs d p.
Proof.
  unfold scan_into. destruct (fst (read_matches re_other cfg fs p)); [reflexivity|].
  apply dict_set_twice.
Qed.

Lemma fold_scan_NoDup (files : list Path) :
  forall d, NoDup (keys d) -> NoDup (keys (fold_left (scan_into re_other cfg fs) files d)).
Proof.
  induction files as [|p files IH]; intros d H; cbn; [exact H|].
  apply IH. now apply scan_into_NoDup.
Qed.

Lemma key_has_item {V : Type} (d : dict V) (k : string) :
  In k (keys d) -> exists v, In (k, v) d.
Proof.
  unfold keys. intro H. apply in_map_iff in H.
  destruct H as ([k' v] & Hk & Hin). cbn in Hk. subst k'. now exists v.
Qed.

Lemma row_paths_of_report (d : dict (list match_record)) :
  map row_path (map report_row d) = keys d.
Proof.
  unfold keys. rewrite map_map. apply map_ext. now intros [k v].
Qed.

End Store.

(** ** The worker pool *)

Lemma in_middle {A : Type} (x y : A) (l1 l2 : list A) :
  In x (l1 ++ y :: l2) <-> x = y \/ In x (l1 ++ l2).
Proof.
  rewrite !in_app_iff. cbn. intuition auto.
Qed.

Section Pool.

Variable re_other : string -> string -> outcome (list nat).
Variable cfg : config.
Variable fs : node.
Variable files : list Path.

Lemma record_is_scan_into (p : Path) (w : world) :
  results_dict (snd (record (str_path p) (fst (read_matches re_other cfg fs p)) w))
  = scan_into re_other cfg fs (results_dict w) p.
Proof.
  unfold scan_into. destruct (fst (read_matches re_other cfg fs p)); reflexivity.
Qed.

(** A step of the pool keeps the invariant. *)
Lemma pool_step_inv (n : nat) (st st' : pool) :
  pool_step re_other cfg fs n st st' ->
  pool_inv re_other cfg fs files st -> pool_inv re_other cfg fs files st'.
Proof.
  intros Hstep [Hk Hi Hq Ht Ha].
  destruct Hstep as [p q ts w Hfree|q ts1 p ts2 w|q ts1 p found ts2 w];
    cbn [queue running shared] in *.
  - constructor; cbn [queue running shared]; auto.
    + intros p' Hp'. apply Hq. now right.
    + apply Forall_app. split; [exact Ht|].
      constructor; [|constructor]. cbn. apply Hq. now left.
    + intros p' Hin Hne. specialize (Ha p' Hin Hne). unfold accounted in *.
      cbn [queue running shared] in *.
      destruct Ha as [H|[[->|H]|[H|H]]]; auto.
      * right. right. left. apply in_app_iff. right. now left.
      * right. right. left. apply in_app_iff. now left.
      * right. right. right. apply in_app_iff. now left.
  - rewrite Forall_forall in Ht.
    assert (Hp : In p files).
    { apply (Ht (Scanning p)). apply in_middle. now left. }
    destruct (report_error_run p (snd (read_matches re_other cfg fs p)) w)
      as (_ & Hd & _).
    constructor; cbn [queue running shared]; try rewrite Hd; auto.
    + apply Forall_forall. intros t Hin. apply in_middle in Hin.
      destruct Hin as [->|Hin]; [cbn; auto|].
      apply Ht. apply in_middle. now right.
    + intros p' Hin Hne. specialize (Ha p' Hin Hne). unfold accounted in *.
      cbn [queue running shared] in *. rewrite Hd.
      destruct Ha as [H|[H|[H|H]]]; auto.
      * apply in_middle in H. destruct H as [H|H].
        -- inversion H; subst p'. right. right. right. apply in_middle. now left.
        -- right. right. left. apply in_middle. now right.
      * apply in_middle in H. destruct H as [H|H]; [discriminate|].
        right. right. right. apply in_middle. now right.
  - rewrite Forall_forall in Ht.
    assert (Hp : In p files /\ found = fst (read_matches re_other cfg fs p)).
    { apply (Ht (AtLock p found)). apply in_middle. now left. }
    destruct Hp as [Hp ->]. 
    constructor; cbn [queue running shared]; try rewrite record_is_scan_into; auto.
    + now apply scan_into_NoDup.
    + intros k v Hin. apply scan_into_In in Hin.
      destruct Hin as [Hin|(-> & -> & Hne)]; [now apply Hi|].
      exists p. auto.
    + apply Forall_forall. intros t Hin. apply Ht. apply in_middle. now right.
    + intros p' Hin Hne. specialize (Ha p' Hin Hne). unfold accounted in *.
      cbn [queue running shared] in *. rewrite record_is_scan_into.
      destruct Ha as [H|[H|[H|H]]]; auto.
      * left. now apply scan_into_keeps_keys.
      * apply in_middle in H. destruct H as [H|H]; [discriminate|auto].
      * apply in_middle in H. destruct H as [H|H]; [|auto].
        inversion H; subst p'. left. now apply scan_into_adds_key.
Qed.

Lemma pool_steps_inv (n : nat) (st st' : pool) :
  pool_steps re_other cfg fs n st st' ->
  pool_inv re_other cfg fs files st -> pool_inv re_other cfg fs files st'.
Proof.
  induction 1 as [st|st1 st2 st3 Hstep _ IH]; [auto|].
  intro Hinv. apply IH. exact (pool_step_inv _ _ _ Hstep Hinv).
Qed.

Lemma pool_inv_start (w : world) :
  results_dict w = [] ->
  pool_inv re_other cfg fs files {| queue := files; running := []; shared := w |}.
Proof.
  intro Hd. constructor; cbn [queue running shared]; try rewrite Hd.
  - constructor.
  - intros k v [].
  - auto.
  - constructor.
  - intros p Hin _. right. now left.
Qed.

(** When the pool is done: the keys of the store are distinct, every item
    is what the scan of one of the files found, and every file with a match
    has its key. *)
Lemma executor_map_sound (n : nat) (w w' : world) :
  results_dict w = [] ->
  executor_map re_other cfg fs n files w w' ->
  NoDup (keys (results_dict w')) /\
  (forall k v,
     In (k, v) (results_dict w') ->
     exists p, In p files /\ k = str_path p /\
               v = fst (read_matches re_other cfg fs p) /\ v <> []) /\
  (forall p, In p files -> fst (read_matches re_other cfg fs p) <> [] ->
             In (str_path p) (keys (results_dict w'))).
Proof.
  intros Hd Hrun.
  pose proof (pool_steps_inv _ _ _ Hrun (pool_inv_start w Hd)) as [Hk Hi _ _ Ha].
  cbn [queue running shared] in *. split; [exact Hk|]. split; [exact Hi|].
  intros p Hp Hne.
  destruct (Ha p Hp Hne) as [H|[[]|[[]|[]]]]. exact H.
Qed.

(** With well-formed paths, the store holds exactly what the scans of the
    files found, once per path. *)
Lemma executor_map_store (n : nat) (w w' : world) :
  Forall well_formed files ->
  results_dict w = [] ->
  executor_map re_other cfg fs n files w w' ->
  NoDup (keys (results_dict w')) /\
  forall k v,
    In (k, v) (results_dict w') <->
    exists p, In p files /\ k = str_path p /\
              v = fst (read_matches re_other cfg fs p) /\ v <> [].
Proof.
  intros Hwf Hd Hrun.
  destruct (executor_map_sound n w w' Hd Hrun) as (Hk & Hi & Ha).
  split; [exact Hk|].
  intros k v. split; [apply Hi|].
  intros (p & Hp & -> & -> & Hne).
  pose proof (Ha p Hp Hne) as H.
  apply key_has_item in H. destruct H as [v Hin].
  destruct (Hi _ _ Hin) as (q & Hq & Hstr & -> & _).
  rewrite Forall_forall in Hwf.
  pose proof (str_path_inj p q (Hwf p Hp) (Hwf q Hq) Hstr) as Hpq.
  subst q. exact Hin.
Qed.

(** The pool can always finish: one worker after the other takes a file,
    scans it and records, which is what [search_file] does in turn. *)
Lemma executor_map_in_turn (n : nat) :
  1 <= n ->
  forall fl w,
    executor_map re_other cfg fs n fl w
      (snd (for_each (search_file re_other cfg fs) fl w)).
Proof.
  intro Hn. unfold executor_map.
  induction fl as [|p fl IH]; intro w; [apply steps_done|].
  eapply steps_next; [apply step_take; cbn; lia|].
  eapply steps_next; [apply (step_scan re_other cfg fs n fl [] p [] w)|].
  eapply steps_next;
    [apply (step_record re_other cfg fs n fl [] p _ [])|].
  cbn [app for_each].
  destruct (search_file_run re_other cfg fs p w) as (H1 & _).
  rewrite (bind_run _ _ _ _ H1).
  replace (snd (search_file re_other cfg fs p w))
    with (snd (record (str_path p) (fst (read_matches re_other cfg fs p))
                 (snd (report_error p (snd (read_matches re_other cfg fs p)) w)))).
  - apply IH.
  - unfold search_file.
    destruct (read_matches re_other cfg fs p) as [found raised]. cbn [fst snd].
    destruct (report_error_run p raised w) as (K & _).
    now rewrite (bind_run _ _ _ _ K).
Qed.

Lemma no_step_when_idle (n : nat) (w : world) (st : pool) :
  ~ pool_step re_other cfg fs n {| queue := []; running := []; shared := w |} st.
Proof.
  intro H. inversion H as [p q ts w0 Hfree|q ts1 p ts2 w0|q ts1 p found ts2 w0];
    match goal with
    | H : _ ++ _ :: _ = [] |- _ => symmetry in H; now apply app_cons_not_nil in H
    | H : [] = _ ++ _ :: _ |- _ => now apply app_cons_not_nil in H
    end.
Qed.

Lemma one_task_in_middle (t u : task) (ts1 ts2 : list task) :
  ts1 ++ t :: ts2 = [u] -> ts1 = [] /\ t = u /\ ts2 = [].
Proof.
  intro H. destruct ts1 as [|a ts1]; cbn in H.
  - inversion H. auto.
  - inversion H as [[Ha Hrest]]. symmetry in Hrest.
    now apply app_cons_not_nil in Hrest.
Qed.

(** When one worker at most can be busy, because the pool has one worker
    or because the queue is empty, the next step is forced. *)
Lemma step_when_idle (n : nat) (p : Path) (q : list Path) (w : world) (st : pool) :
  pool_step re_other cfg fs n {| queue := p :: q; running := []; shared := w |} st ->
  st = {| queue := q; running := [Scanning p]; shared := w |}.
Proof.
  intro H.
  inversion H as [p0 q0 ts w0 Hfree|q0 ts1 p0 ts2 w0|q0 ts1 p0 found ts2 w0].
  - reflexivity.
  - exfalso. eapply app_cons_not_nil. symmetry. eassumption.
  - exfalso. eapply app_cons_not_nil. symmetry. eassumption.
Qed.

Lemma step_when_scanning (n : nat) (p : Path) (q : list Path) (w : world) (st : pool) :
  n = 1 \/ q = [] ->
  pool_step re_other cfg fs n
    {| queue := q; running := [Scanning p]; shared := w |} st ->
  st = {| queue := q;
          running := [AtLock p (fst (read_matches re_other cfg fs p))];
          shared := snd (report_error p (snd (read_matches re_other cfg fs p)) w) |}.
Proof.
  intros Hone H.
  inversion H as [p0 q0 ts w0 Hfree|q0 ts1 p0 ts2 w0|q0 ts1 p0 found ts2 w0].
  - subst ts. cbn in Hfree. destruct Hone as [Hn | Hq]; [lia | congruence].
  - match goal with Hr : _ ++ _ :: _ = [_] |- _ =>
      apply one_task_in_middle in Hr; destruct Hr as (-> & Ht & ->) end.
    inversion Ht. subst. reflexivity.
  - match goal with Hr : _ ++ _ :: _ = [_] |- _ =>
      apply one_task_in_middle in Hr; destruct Hr as (_ & Ht & _) end.
    discriminate Ht.
Qed.

Lemma step_when_at_lock (n : nat) (p : Path) (found : list match_record)
    (q : list Path) (w : world) (st : pool) :
  n = 1 \/ q = [] ->
  pool_step re_other cfg fs n
    {| queue := q; running := [AtLock p found]; shared := w |} st ->
  st = {| queue := q; running := [];
          shared := snd (record (str_path p) found w) |}.
Proof.
  intros Hone H.
  inversion H as [p0 q0 ts w0 Hfree|q0 ts1 p0 ts2 w0|q0 ts1 p0 found0 ts2 w0].
  - subst ts. cbn in Hfree. destruct Hone as [Hn | Hq]; [lia | congruence].
  - match goal with Hr : _ ++ _ :: _ = [_] |- _ =>
      apply one_task_in_middle in Hr; destruct Hr as (_ & Ht & _) end.
    discriminate Ht.
  - match goal with Hr : _ ++ _ :: _ = [_] |- _ =>
      apply one_task_in_middle in Hr; destruct Hr as (-> & Ht & ->) end.
    inversion Ht. subst. reflexivity.
Qed.

Lemma search_file_in_two_moves (p : Path) (w : world) :
  snd (search_file re_other cfg fs p w)
  = snd (record (str_path p) (fst (read_matches re_other cfg fs p))
           (snd (report_error p (snd (read_matches re_other cfg fs p)) w))).
Proof.
  unfold search_file.
  destruct (read_matches re_other cfg fs p) as [found raised]. cbn [fst snd].
  destruct (report_error_run p raised w) as (K & _).
  now rewrite (bind_run _ _ _ _ K).
Qed.

(** The pool takes one file from the idle state to the idle state by the
    three moves of one worker, which do what [search_file] does. *)
Lemma one_file_through (n : nat) (p : Path) (q : list Path) (w : world) (st : pool) :
  n = 1 \/ q = [] ->
  pool_steps re_other cfg fs n {| queue := p :: q; running := []; shared := w |} st ->
  queue st = [] -> running st = [] ->
  pool_steps re_other cfg fs n
    {| queue := q; running := []; shared := snd (search_file re_other cfg fs p w) |}
    st.
Proof.
  intros Hone Hrun Hq Hr.
  inversion Hrun as [|? st2 ? Hstep Hrest]; subst; [discriminate Hq|].
  apply step_when_idle in Hstep. subst st2.
  inversion Hrest as [|? st3 ? Hstep2 Hrest2]; subst; [discriminate Hr|].
  apply (step_when_scanning n p q w st3 Hone) in Hstep2. subst st3.
  inversion Hrest2 as [|? st4 ? Hstep3 Hrest3]; subst; [discriminate Hr|].
  apply (step_when_at_lock n p _ q _ st4 Hone) in Hstep3. subst st4.
  now rewrite search_file_in_two_moves.
Qed.

(** With one worker the pool has no choice: it takes the files in turn and
    finishes each before the next, as the loop [for_each search_file]
    does. *)
Lemma executor_map_one_worker (fl : list Path) :
  forall w w',
    executor_map re_other cfg fs 1 fl w w' ->
    w' = snd (for_each (search_file re_other cfg fs) fl w).
Proof.
  unfold executor_map.
  induction fl as [|p fl IH]; intros w w' Hrun.
  - inversion Hrun as [|? st2 ? Hstep _]; subst; [reflexivity|].
    now apply no_step_when_idle in Hstep.
  - apply one_file_through in Hrun; auto.
    apply IH in Hrun. rewrite Hrun. cbn [for_each].
    destruct (search_file_run re_other cfg fs p w) as (H1 & _).
    now rewrite (bind_run _ _ _ _ H1).
Qed.

(** On one file every pool does what [search_file] does. *)
Lemma executor_map_one_file (n : nat) (p : Path) (w w' : world) :
  executor_map re_other cfg fs n [p] w w' ->
  w' = snd (search_file re_other cfg fs p w).
Proof.
  unfold executor_map. intro Hrun.
  apply one_file_through in Hrun; auto.
  inversion Hrun as [|? st2 ? Hstep _]; subst; [reflexivity|].
  now apply no_step_when_idle in Hstep.
Qed.

(** The loop [for_each search_file] is one of the runs of the pool, so its
    store is described in the same way. *)
Lemma for_each_store (w : world) :
  Forall well_formed files ->
  results_dict w = [] ->
  NoDup (keys (results_dict (snd (for_each (search_file re_other cfg fs) files w)))) /\
  forall k v,
    In (k, v) (results_dict (snd (for_each (search_file re_other cfg fs) files w))) <->
    exists p, In p files /\ k = str_path p /\
              v = fst (read_matches re_other cfg fs p) /\ v <> [].
Proof.
  intros Hwf Hd.
  apply (executor_map_store 1 w _ Hwf Hd).
  apply executor_map_in_turn. lia.
Qed.

End Pool.

(** ** The runs of [main] *)

Section Scheduled.

Variable re_other : string -> string -> outcome (list nat).
Variable cfg : config.
Variable fs : node.

Lemma filter_permutation (completed : list Path) (p : Path) :
  Permutation completed (all_files cfg fs) ->
  (In p (filter (searchable cfg fs) completed)
   <-> In p (filter (searchable cfg fs) (all_files cfg fs))).
Proof.
  intro Hperm. rewrite !filter_In.
  split; intros [Hin Hs]; (split; [|exact Hs]).
  - exact (Permutation_in _ Hperm Hin).
  - exact (Permutation_in _ (Permutation_sym Hperm) Hin).
Qed.

(** Whatever the scheduler does, the report renders the store, whose keys
    are distinct; every item is what the scan of a searchable file found,
    and every searchable file with a match has its key. *)
Lemma main_scheduled_sound (w' : world) :
  main_scheduled re_other cfg fs w' ->
  csvfile w' = fieldnames :: map report_row (results_dict w') /\
  NoDup (keys (results_dict w')) /\
  (forall k v,
     In (k, v) (results_dict w') ->
     exists p, In p (filter (searchable cfg fs) (all_files cfg fs)) /\
               k = str_path p /\
               v = fst (read_matches re_other cfg fs p) /\ v <> []) /\
  (forall p, In p (filter (searchable cfg fs) (all_files cfg fs)) ->
             fst (read_matches re_other cfg fs p) <> [] ->
             In (str_path p) (keys (results_dict w'))).
Proof.
  intros (completed & fts & w1 & w2 & Hperm & Hfilter & Hrun & ->).
  destruct (filter_phase_run cfg fs completed initial_world) as (F1 & F2 & _).
  rewrite Hfilter in F1, F2. cbn [fst snd] in F1, F2.
  inversion F1; subst fts.
  destruct (executor_map_sound re_other cfg fs _ _ w1 w2 F2 Hrun) as (Hk & Hi & Ha).
  destruct (report_phase_run cfg w2) as (_ & R2 & R3).
  rewrite R2, R3. split; [reflexivity|]. split; [exact Hk|]. split.
  - intros k v Hin. destruct (Hi k v Hin) as (p & Hp & H).
    exists p. split; [now apply (filter_permutation completed)|exact H].
  - intros p Hp Hne. apply Ha; [|exact Hne].
    now apply (filter_permutation completed).
Qed.

(** The run of [main] in which the tasks are worked off in turn is one of
    them, whenever the pool has a worker. *)
Lemma main_scheduled_in_turn :
  1 <= NUM_THREADS cfg ->
  main_scheduled re_other cfg fs (snd (main re_other cfg fs initial_world)).
Proof.
  intro Hn.
  destruct (filter_phase_run cfg fs (all_files cfg fs) initial_world) as (F1 & _).
  exists (all_files cfg fs), (filter (searchable cfg fs) (all_files cfg fs)),
         (snd (filter_phase cfg fs (all_files cfg fs) initial_world)),
         (snd (for_each (search_file re_other cfg fs)
                 (filter (searchable cfg fs) (all_files cfg fs))
                 (snd (filter_phase cfg fs (all_files cfg fs) initial_world)))).
  split; [apply Permutation_refl|]. split; [|split].
  - rewrite <- F1. apply surjective_pairing.
  - now apply executor_map_in_turn.
  - unfold main. rewrite (bind_run _ _ _ _ F1).
    destruct (for_each_run re_other cfg fs
                (filter (searchable cfg fs) (all_files cfg fs))
                (snd (filter_phase cfg fs (all_files cfg fs) initial_world)))
      as (K1 & _).
    now rewrite (bind_run _ _ _ _ K1).
Qed.

(** No row of a report is for a path, well formed, that is not among the
    searchable files with a match. *)
Lemma main_scheduled_no_row (w' : world) (p : Path) :
  names_ok fs -> Forall well_formed (DIRECTORIES_TO_SEARCH cfg) ->
  well_formed p ->
  main_scheduled re_other cfg fs w' ->
  In (str_path p) (map row_path (data_rows w')) ->
  In p (filter (searchable cfg fs) (all_files cfg fs)) /\
  fst (read_matches re_other cfg fs p) <> [].
Proof.
  intros Hfs Hroots Hp Hrun Hin.
  pose proof (all_files_well_formed cfg fs Hfs Hroots) as Hall.
  destruct (main_scheduled_sound w' Hrun) as (Hc & _ & Hi & _).
  unfold data_rows in Hin. rewrite Hc in Hin. cbn [tl] in Hin.
  rewrite row_paths_of_report in Hin.
  apply key_has_item in Hin. destruct Hin as [v Hin].
  destruct (Hi _ _ Hin) as (q & Hq & Hstr & -> & Hne).
  assert (p = q).
  { apply str_path_inj; auto. rewrite Forall_forall in Hall.
    apply Hall. apply filter_In in Hq. apply Hq. }
  subst q. now split.
Qed.

End Scheduled.

(** ** The end-to-end scenario *)

(** C3 (amended): for the file a.txt with the lines foo, whatever bar and
    WHATEVER, the search term whatever and no exclusions, whatever the
    number of workers and the scheduler, the store ends with the one entry
    of a.txt and the report has exactly one row below its header, for
    a.txt, with the occurrence count 2 and the positions (2, 0, 8) and
    (3, 0, 8): lines are counted from 1, offsets from 0, and both matches
    start their line. *)
Theorem C3_report_of_the_scenario re_other (n : nat) (w' : world) :
  main_scheduled re_other (with_workers n) fs_a_txt w' ->
  results_dict w' = [("a.txt", [(2, 0, 8); (3, 0, 8)])] /\
  csvfile w'
  = [["File Path"; "Occurrence Count"; "Positions"];
     ["a.txt"; "2"; "[(2, 0, 8), (3, 0, 8)]"]].
Proof.
  intros (completed & fts & w1 & w2 & Hperm & Hfilter & Hrun & ->).
  change (all_files (with_workers n) fs_a_txt) with [["a.txt"]] in Hperm.
  apply Permutation_sym, Permutation_length_1_inv in Hperm. subst completed.
  vm_compute in Hfilter. inversion Hfilter; subst fts w1. clear Hfilter.
  apply executor_map_one_file in Hrun. subst w2.
  split; vm_compute; reflexivity.
Qed.

Lemma C3_witness :
  main_scheduled fragment_only (with_workers 10) fs_a_txt
    (snd (main fragment_only (with_workers 10) fs_a_txt initial_world)) /\
  results_dict (snd (main fragment_only (with_workers 10) fs_a_txt initial_world))
  = [("a.txt", [(2, 0, 8); (3, 0, 8)])].
Proof.
  assert (H : main_scheduled fragment_only (with_workers 10) fs_a_txt
                (snd (main fragment_only (with_workers 10) fs_a_txt initial_world))).
  { apply main_scheduled_in_turn. cbn. lia. }
  split; [exact H|].
  exact (proj1 (C3_report_of_the_scenario fragment_only 10 _ H)).
Defined.

(** The positions recorded for a.txt are not those of the scenario as it is
    written. *)
Lemma C3_counterexample :
  dict_get "a.txt"
    (results_dict (snd (main fragment_only default_config fs_a_txt initial_world)))
  = Some [(2, 0, 8); (3, 0, 8)] /\
  [(2, 0, 8); (3, 0, 8)] <> [(2, 4, 13); (3, 0, 9)].
Proof.
  split; [vm_compute; reflexivity|discriminate].
Qed.

(** ** Files without a match *)

(** C9: the block that records inserts or overwrites the entry of the path
    when the matches are not empty, and leaves the other entries alone; it
    does nothing when they are empty.  Hence, whatever the scheduler does,
    every row of the report of [main] renders an entry with at least one
    match, and a file without a match has no row (in a tree whose entries
    have proper names, searched from well-formed roots). *)
Theorem C9_record_and_rows_without_zero_count re_other cfg fs :
  (forall key m ms w,
     fst (record key (m :: ms) w) = Return tt /\
     results_dict (snd (record key (m :: ms) w))
     = dict_set key (m :: ms) (results_dict w) /\
     dict_get key (results_dict (snd (record key (m :: ms) w))) = Some (m :: ms) /\
     (forall k', k' <> key ->
        dict_get k' (results_dict (snd (record key (m :: ms) w)))
        = dict_get k' (results_dict w))) /\
  (forall key w, record key [] w = (Return tt, w)) /\
  (forall w' row,
     main_scheduled re_other cfg fs w' ->
     In row (data_rows w') ->
     exists file_path positions,
       row = [file_path; str_nat (List.length positions); str_positions positions] /\
       1 <= List.length positions /\
       In (file_path, positions) (results_dict w')) /\
  (forall w' p,
     names_ok fs -> Forall well_formed (DIRECTORIES_TO_SEARCH cfg) ->
     well_formed p ->
     main_scheduled re_other cfg fs w' ->
     fst (read_matches re_other cfg fs p) = [] ->
     ~ In (str_path p) (map row_path (data_rows w'))).
Proof.
  split; [|split; [|split]].
  - intros key m ms w. cbn. split; [reflexivity|]. split; [reflexivity|].
    split; [apply dict_get_set_same|]. intros k' Hne. now apply dict_get_set_other.
  - reflexivity.
  - intros w' row Hrun Hrow.
    destruct (main_scheduled_sound re_other cfg fs w' Hrun) as (Hc & _ & Hi & _).
    unfold data_rows in Hrow. rewrite Hc in Hrow. cbn [tl] in Hrow.
    apply in_map_iff in Hrow. destruct Hrow as ([k v] & <- & Hin).
    exists k, v. split; [reflexivity|]. split; [|exact Hin].
    destruct (Hi _ _ Hin) as (q & _ & _ & _ & Hne).
    destruct v; [contradiction|cbn; lia].
  - intros w' p Hfs Hroots Hp Hrun Hnone Hin.
    destruct (main_scheduled_no_row re_other cfg fs w' p Hfs Hroots Hp Hrun Hin)
      as [_ Hne].
    contradiction.
Qed.

Lemma C9_witness :
  names_ok fs_nested /\
  Forall well_formed (DIRECTORIES_TO_SEARCH default_config) /\
  well_formed ["top.txt"] /\
  main_scheduled fragment_only default_config fs_nested
    (snd (main fragment_only default_config fs_nested initial_world)) /\
  fst (read_matches fragment_only default_config fs_nested ["top.txt"]) = [] /\
  ~ In (str_path ["top.txt"])
       (map row_path
          (data_rows (snd (main fragment_only default_config fs_nested initial_world)))).
Proof.
  assert (H1 : names_ok fs_nested) by (cbn; repeat split).
  assert (H2 : Forall well_formed (DIRECTORIES_TO_SEARCH default_config))
    by (repeat constructor).
  assert (H3 : well_formed ["top.txt"]) by (repeat constructor).
  assert (H4 : main_scheduled fragment_only default_config fs_nested
                 (snd (main fragment_only default_config fs_nested initial_world))).
  { apply main_scheduled_in_turn. cbn. lia. }
  split; [exact H1|]. split; [exact H2|]. split; [exact H3|]. split; [exact H4|].
  split; [reflexivity|].
  exact (proj2 (proj2 (proj2
           (C9_record_and_rows_without_zero_count
              fragment_only default_config fs_nested)))
           _ ["top.txt"] H1 H2 H3 H4 eq_refl).
Defined.

(** ** Files that do not decode *)

Lemma read_broken (e : exn) (rest : list chunk) (texts : list string) :
  forall n,
    decoded_length texts < n ->
    read n (map Text texts ++ Broken e :: rest) = Raise e.
Proof.
  unfold decoded_length, list_sum.
  induction texts as [|t texts IH]; intros n Hlt; cbn in *.
  - destruct n; [lia|reflexivity].
  - destruct (Nat.leb_spec n (String.length t)) as [Hle|Hgt]; [lia|].
    rewrite IH by lia. reflexivity.
Qed.

(** C4 (amended): a file in which fewer than 1024 characters decode before
    the chunk that holds an invalid byte sequence is not searchable, without
    any message; it is not among the searchable files, [main] ends without
    an exception, and whatever the scheduler does the file has no row in
    the report (in a tree whose entries have proper names, searched from
    well-formed roots). *)
Theorem C4_undecodable_start_is_excluded
    re_other cfg fs (P : Path) (texts : list string) (rest : list chunk) :
  open_text fs P = Return (map Text texts ++ Broken UnicodeDecodeError :: rest) ->
  decoded_length texts < 1024 ->
  (forall w, is_file_searchable cfg fs P w = (Return false, w)) /\
  ~ In P (filter (searchable cfg fs) (all_files cfg fs)) /\
  fst (main re_other cfg fs initial_world) = Return tt /\
  (forall w',
     names_ok fs -> Forall well_formed (DIRECTORIES_TO_SEARCH cfg) ->
     well_formed P ->
     main_scheduled re_other cfg fs w' ->
     ~ In (str_path P) (map row_path (data_rows w'))).
Proof.
  intros Hopen Hlen.
  pose proof (read_broken UnicodeDecodeError rest texts 1024 Hlen) as Hread.
  assert (Hfalse : forall w, is_file_searchable cfg fs P w = (Return false, w)).
  { intro w. unfold is_file_searchable.
    destruct (existsb _ _); [reflexivity|].
    destruct (_ && _); [reflexivity|].
    destruct (mem_string _ _); [reflexivity|].
    rewrite Hopen, Hread. reflexivity. }
  assert (Hns : searchable cfg fs P = false).
  { unfold searchable. now rewrite Hfalse. }
  assert (Hnot : ~ In P (filter (searchable cfg fs) (all_files cfg fs))).
  { intro Hin. apply filter_In in Hin. destruct Hin as [_ Hs]. congruence. }
  split; [exact Hfalse|]. split; [exact Hnot|]. split.
  - apply main_run.
  - intros w' Hfs Hroots HP Hrun Hin.
    destruct (main_scheduled_no_row re_other cfg fs w' P Hfs Hroots HP Hrun Hin)
      as [Hq _].
    contradiction.
Qed.

Lemma C4_witness :
  open_text fs_binary ["blob.bin"]
  = Return (map Text [] ++ Broken UnicodeDecodeError :: []) /\
  decoded_length [] < 1024 /\
  is_file_searchable default_config fs_binary ["blob.bin"] initial_world
  = (Return false, initial_world) /\
  ~ In (str_path ["blob.bin"])
       (map row_path
          (data_rows (snd (main fragment_only default_config fs_binary
                             initial_world)))).
Proof.
  assert (Hlen : decoded_length [] < 1024) by (cbn; lia).
  split; [reflexivity|]. split; [exact Hlen|].
  destruct (C4_undecodable_start_is_excluded
              fragment_only default_config fs_binary ["blob.bin"] [] []
              eq_refl Hlen)
    as (H1 & _ & _ & H4).
  split; [apply H1|].
  apply H4; [cbn; repeat split|repeat constructor|repeat constructor|].
  apply main_scheduled_in_turn. cbn. lia.
Defined.

(** The invalid byte sequence comes after a first chunk of 8192 characters:
    the file is searchable, and it has a row in the report. *)
Lemma C4_counterexample :
  (exists first,
     open_text fs_late_invalid ["big.txt"]
     = Return [Text first; Broken UnicodeDecodeError]) /\
  fst (is_file_searchable default_config fs_late_invalid ["big.txt"] initial_world)
  = Return true /\
  map row_path
      (data_rows (snd (main fragment_only default_config fs_late_invalid
                         initial_world)))
  = ["big.txt"].
Proof.
  split; [eexists; reflexivity|]. split; vm_compute; reflexivity.
Qed.

(** C6: the workers of the pool take the queued files, scan them on their
    own and record under the lock, in whatever order the scheduler picks.
    Over the same searchable files, the pool of one worker and every pool of
    more workers run to their end; the pool of one worker does what the
    loop over the files does; and the rows of the reports written from the
    two stores are the same up to their order, with one row per file path:
    every file with a match has its row, and none has two. *)
Theorem C6_pool_size_does_not_change_the_report
    re_other cfg fs (files : list Path) (n : nat) (w : world) :
  Forall well_formed files ->
  results_dict w = [] ->
  1 < n ->
  (exists w1, executor_map re_other cfg fs 1 files w w1) /\
  (exists wn, executor_map re_other cfg fs n files w wn) /\
  (forall w1,
     executor_map re_other cfg fs 1 files w w1 ->
     w1 = snd (for_each (search_file re_other cfg fs) files w)) /\
  (forall w1 wn,
     executor_map re_other cfg fs 1 files w w1 ->
     executor_map re_other cfg fs n files w wn ->
     Permutation (data_rows (snd (write_to_csv w1)))
                 (data_rows (snd (write_to_csv wn))) /\
     NoDup (map row_path (data_rows (snd (write_to_csv w1)))) /\
     NoDup (map row_path (data_rows (snd (write_to_csv wn)))) /\
     (forall p, In p files -> fst (read_matches re_other cfg fs p) <> [] ->
        In [str_path p;
            str_nat (List.length (fst (read_matches re_other cfg fs p)));
            str_positions (fst (read_matches re_other cfg fs p))]
           (data_rows (snd (write_to_csv wn))))).
Proof.
  intros Hwf Hd Hn.
  split; [eexists; apply executor_map_in_turn; lia|].
  split; [eexists; apply executor_map_in_turn; lia|].
  split; [apply executor_map_one_worker|].
  intros w1 wn H1 Hn'.
  destruct (executor_map_store re_other cfg fs files 1 w w1 Hwf Hd H1) as [K1 I1].
  destruct (executor_map_store re_other cfg fs files n w wn Hwf Hd Hn') as [Kn In'].
  unfold data_rows, write_to_csv. cbn [snd csvfile tl].
  rewrite !row_paths_of_report.
  split; [|split; [exact K1|split; [exact Kn|]]].
  - apply Permutation_map. apply NoDup_Permutation.
    + now apply NoDup_keys_NoDup.
    + now apply NoDup_keys_NoDup.
    + intros [k v]. rewrite I1, In'. reflexivity.
  - intros p Hp Hne.
    change [str_path p;
            str_nat (List.length (fst (read_matches re_other cfg fs p)));
            str_positions (fst (read_matches re_other cfg fs p))]
      with (report_row (str_path p, fst (read_matches re_other cfg fs p))).
    apply in_map. apply In'. exists p. auto.
Qed.

Lemma C6_witness :
  Forall well_formed [["top.txt"]; ["sub"; "x.txt"]] /\
  results_dict initial_world = [] /\
  1 < 2 /\
  exists wn,
    executor_map fragment_only default_config fs_nested 2
      [["top.txt"]; ["sub"; "x.txt"]] initial_world wn.
Proof.
  assert (Hwf : Forall well_formed [["top.txt"]; ["sub"; "x.txt"]])
    by (repeat constructor).
  assert (Hlt : 1 < 2) by lia.
  split; [exact Hwf|]. split; [reflexivity|]. split; [exact Hlt|].
  exact (proj1 (proj2
           (C6_pool_size_does_not_change_the_report
              fragment_only default_config fs_nested
              [["top.txt"]; ["sub"; "x.txt"]] 2 initial_world
              Hwf eq_refl Hlt))).
Defined.

(** ** Files met more than once *)

(** C10: whatever the roots, and so also when the traversal yields a file
    more than once, and whatever the scheduler does, the report of [main]
    has at most one row per file path; the scans keep the keys of the store
    distinct; scanning a file again right after its scan leaves the store
    as it was, the entry being overwritten by an equal value; the entry of
    a file that matched is what its scan found; and two lists of the same
    files, whatever the number of times each of them holds a file, lead to
    the same rows up to their order. *)
Theorem C10_one_row_per_file_path re_other cfg fs :
  (forall w',
     main_scheduled re_other cfg fs w' ->
     NoDup (map row_path (data_rows w'))) /\
  (forall files,
     NoDup (keys (results_dict
                    (snd (for_each (search_file re_other cfg fs) files initial_world))))) /\
  (forall p w,
     results_dict (snd (search_file re_other cfg fs p
                          (snd (search_file re_other cfg fs p w))))
     = results_dict (snd (search_file re_other cfg fs p w))) /\
  (forall p w m ms,
     fst (read_matches re_other cfg fs p) = m :: ms ->
     dict_get (str_path p) (results_dict (snd (search_file re_other cfg fs p w)))
     = Some (m :: ms)) /\
  (forall files files',
     Forall well_formed files ->
     (forall p, In p files <-> In p files') ->
     Permutation
       (map report_row
          (results_dict
             (snd (for_each (search_file re_other cfg fs) files initial_world))))
       (map report_row
          (results_dict
             (snd (for_each (search_file re_other cfg fs) files' initial_world))))).
Proof.
  split; [|split; [|split; [|split]]].
  - intros w' Hrun.
    destruct (main_scheduled_sound re_other cfg fs w' Hrun) as (Hc & Hk & _).
    unfold data_rows. rewrite Hc. cbn [tl]. now rewrite row_paths_of_report.
  - intro files.
    destruct (for_each_run re_other cfg fs files initial_world) as (_ & Hd & _).
    rewrite Hd. apply fold_scan_NoDup. constructor.
  - intros p w.
    destruct (search_file_run re_other cfg fs p
                (snd (search_file re_other cfg fs p w))) as (_ & H2 & _).
    destruct (search_file_run re_other cfg fs p w) as (_ & H1 & _).
    rewrite H2, H1. apply scan_into_twice.
  - intros p w m ms Hm.
    destruct (search_file_run re_other cfg fs p w) as (_ & H1 & _).
    rewrite H1. unfold scan_into. rewrite Hm. apply dict_get_set_same.
  - intros files files' Hwf Hsame.
    assert (Hwf' : Forall well_formed files').
    { rewrite Forall_forall in *. intros p Hp. apply Hwf. now apply Hsame. }
    destruct (for_each_store re_other cfg fs files initial_world Hwf eq_refl)
      as [K I].
    destruct (for_each_store re_other cfg fs files' initial_world Hwf' eq_refl)
      as [K' I'].
    apply Permutation_map. apply NoDup_Permutation.
    + now apply NoDup_keys_NoDup.
    + now apply NoDup_keys_NoDup.
    + intros [k v]. rewrite I, I'.
      split; intros (p & Hp & H); exists p; (split; [now apply Hsame|exact H]).
Qed.

Lemma C10_witness :
  Forall well_formed [["sub"; "x.txt"]] /\
  (forall p, In p [["sub"; "x.txt"]] <-> In p [["sub"; "x.txt"]; ["sub"; "x.txt"]]) /\
  Permutation
    (map report_row
       (results_dict
          (snd (for_each (search_file fragment_only overlapping_roots fs_nested)
                  [["sub"; "x.txt"]] initial_world))))
    (map report_row
       (results_dict
          (snd (for_each (search_file fragment_only overlapping_roots fs_nested)
                  [["sub"; "x.txt"]; ["sub"; "x.txt"]] initial_world)))).
Proof.
  assert (Hwf : Forall well_formed [["sub"; "x.txt"]]) by (repeat constructor).
  assert (Hsame : forall p, In p [["sub"; "x.txt"]]
                            <-> In p [["sub"; "x.txt"]; ["sub"; "x.txt"]]).
  { intro p. cbn. tauto. }
  split; [exact Hwf|]. split; [exact Hsame|].
  exact (proj2 (proj2 (proj2 (proj2
           (C10_one_row_per_file_path fragment_only overlapping_roots fs_nested))))
           [["sub"; "x.txt"]] [["sub"; "x.txt"]; ["sub"; "x.txt"]] Hwf Hsame).
Defined.

(** * Further properties of the program *)

(** ** The filter *)

Lemma is_relative_to_prefix (p d : Path) :
  is_relative_to p d = true <-> exists rest, p = d ++ rest.
Proof.
  revert p. induction d as [|c d IH]; intro p.
  - split; [intros _; now exists p|intros _; destruct p; reflexivity].
  - destruct p as [|x p]; cbn.
    + split; [discriminate|]. intros [rest H]. discriminate H.
    + rewrite andb_true_iff, IH. split.
      * intros [Hx [rest ->]]. apply String.eqb_eq in Hx. subst. now exists rest.
      * intros [rest H]. injection H as -> ->. split.
        -- apply String.eqb_refl.
        -- now exists rest.
Qed.

Lemma mem_string_In (x : string) (xs : list string) :
  mem_string x xs = true <-> In x xs.
Proof.
  unfold mem_string. rewrite existsb_exists. split.
  - intros (y & Hy & Heq). apply String.eqb_eq in Heq. now subst.
  - intro H. exists x. split; [exact H|apply String.eqb_refl].
Qed.

Lemma excluded_directory_test cfg (p : Path) :
  existsb (fun excl_dir => is_relative_to p excl_dir) (EXCLUDE_DIRECTORIES cfg) = false
  <-> forall d, In d (EXCLUDE_DIRECTORIES cfg) -> ~ exists rest, p = d ++ rest.
Proof.
  split.
  - intros H d Hd Hrest. apply is_relative_to_prefix in Hrest.
    assert (Ht : existsb (fun excl_dir => is_relative_to p excl_dir)
                         (EXCLUDE_DIRECTORIES cfg) = true).
    { apply existsb_exists. now exists d. }
    congruence.
  - intro H. apply not_true_is_false. intro Ht.
    apply existsb_exists in Ht. destruct Ht as (d & Hd & Hrel).
    apply is_relative_to_prefix in Hrel. exact (H d Hd Hrel).
Qed.

Lemma include_test cfg (p : Path) :
  negb (Nat.eqb (List.length (INCLUDE_FILE_TYPES cfg)) 0)
  && negb (mem_string (suffix p) (INCLUDE_FILE_TYPES cfg)) = false
  <-> INCLUDE_FILE_TYPES cfg = [] \/ In (suffix p) (INCLUDE_FILE_TYPES cfg).
Proof.
  rewrite andb_false_iff, !negb_false_iff, mem_string_In, Nat.eqb_eq.
  split; (intros [H|H]; [left|now right]).
  - now apply length_zero_iff_nil.
  - now rewrite H.
Qed.

Lemma exclude_test cfg (p : Path) :
  mem_string (suffix p) (EXCLUDE_FILE_TYPES cfg) = false
  <-> ~ In (suffix p) (EXCLUDE_FILE_TYPES cfg).
Proof.
  rewrite <- mem_string_In. split.
  - intros H Ht. congruence.
  - intro H. now apply not_true_is_false.
Qed.

(** The filter, case by case: a path that fails a rule on paths is rejected
    and the world stays as it is; otherwise the file is sniffed. *)
Lemma is_file_searchable_cases cfg fs (p : Path) (w : world) :
  (~ passes_path_rules cfg p /\
   is_file_searchable cfg fs p w = (Return false, w)) \/
  (passes_path_rules cfg p /\
   is_file_searchable cfg fs p w
   = match sniff fs p with
     | Return _ => (Return true, w)
     | Raise e => not_searchable p e w
     end).
Proof.
  unfold is_file_searchable, passes_path_rules, sniff.
  destruct (existsb _ (EXCLUDE_DIRECTORIES cfg)) eqn:H1.
  { left. split; [|reflexivity]. intros (H & _).
    apply excluded_directory_test in H. congruence. }
  destruct (_ && _) eqn:H2.
  { left. split; [|reflexivity]. intros (_ & H & _).
    apply include_test in H. congruence. }
  destruct (mem_string _ (EXCLUDE_FILE_TYPES cfg)) eqn:H3.
  { left. split; [|reflexivity]. intros (_ & _ & H).
    apply exclude_test in H. congruence. }
  right. split.
  - split; [now apply excluded_directory_test|].
    split; [now apply include_test|now apply exclude_test].
  - destruct (open_text fs p) as [chunks|e]; [|reflexivity].
    destruct (read 1024 chunks); reflexivity.
Qed.

(** X1: [is_file_searchable] returns [True] exactly when no excluded
    directory is the path or one of its parents (part by part), the suffix
    is in the list of the included types unless that list is empty, the
    suffix is not in the list of the excluded types, and the file opens and
    its first 1024 characters are read without an exception. *)
Theorem X1_is_file_searchable_decision cfg fs (p : Path) (w : world) :
  fst (is_file_searchable cfg fs p w) = Return true <->
  passes_path_rules cfg p /\ exists text, sniff fs p = Return text.
Proof.
  destruct (is_file_searchable_cases cfg fs p w) as [[Hno ->]|[Hyes ->]].
  - cbn. split; [discriminate|]. intros [H _]. contradiction.
  - destruct (sniff fs p) as [text|e].
    + cbn. split; [intros _|reflexivity]. split; [exact Hyes|now exists text].
    + split.
      * intro H. destruct e; discriminate H.
      * intros [_ [text H]]. discriminate H.
Qed.

(** X2: [is_file_searchable] never raises and never touches the store or
    the report.  It prints nothing, except when the path passes the rules on
    paths and opening or reading the file raises an exception that is not a
    decode error: then it prints one warning that names the path and the
    exception, and returns [False]. *)
Theorem X2_is_file_searchable_effects cfg fs (p : Path) (w : world) :
  (exists b, fst (is_file_searchable cfg fs p w) = Return b) /\
  results_dict (snd (is_file_searchable cfg fs p w)) = results_dict w /\
  csvfile (snd (is_file_searchable cfg fs p w)) = csvfile w /\
  (~ passes_path_rules cfg p ->
   stdout (snd (is_file_searchable cfg fs p w)) = stdout w) /\
  (passes_path_rules cfg p ->
   stdout (snd (is_file_searchable cfg fs p w))
   = stdout w ++ match sniff fs p with
                 | Return _ => []
                 | Raise UnicodeDecodeError => []
                 | Raise e => [Warning_unable_to_read p e]
                 end) /\
  (forall e, sniff fs p = Raise e ->
             fst (is_file_searchable cfg fs p w) = Return false).
Proof.
  destruct (is_file_searchable_run cfg fs p w) as (Hb & Hd & Hc).
  split; [eexists; exact Hb|]. split; [exact Hd|]. split; [exact Hc|].
  destruct (is_file_searchable_cases cfg fs p w) as [[Hno Heq]|[Hyes Heq]];
    rewrite Heq; (split; [|split]).
  - reflexivity.
  - intro H. contradiction.
  - reflexivity.
  - intro H. contradiction.
  - intros _. destruct (sniff fs p) as [text|e]; [cbn; now rewrite app_nil_r|].
    destruct e; cbn; try reflexivity. now rewrite app_nil_r.
  - intros e He. rewrite He. now destruct e.
Qed.

(** ** The traversal *)

Lemma mem_path_In (p : Path) (paths : list Path) :
  mem_path p paths = true <-> In p paths.
Proof.
  unfold mem_path, path_eqb. rewrite existsb_exists. split.
  - intros (q & Hq & Heq).
    destruct (list_eq_dec string_dec p q); [now subst|discriminate].
  - intro H. exists p. split; [exact H|].
    destruct (list_eq_dec string_dec p p); [reflexivity|contradiction].
Qed.

(** The walk of a directory, entry by entry. *)
Lemma walk_cons_In cfg (root : Path) (nm : string) (sub : node)
    (es : list (string * node)) (p : Path) :
  In p (walk cfg root (Directory ((nm, sub) :: es))) <->
  match sub with
  | File _ => p = joinpath root nm
  | Directory _ =>
      ~ In (joinpath root nm) (EXCLUDE_DIRECTORIES cfg) /\
      In p (walk cfg (joinpath root nm) sub)
  end \/ In p (walk cfg root (Directory es)).
Proof.
  cbn [walk]. unfold file_names. cbn [flat_map snd fst].
  rewrite map_app, !in_app_iff.
  destruct sub as [f|entries].
  - cbn [map In app]. intuition auto.
  - cbn [map In app].
    destruct (mem_path (joinpath root nm) (EXCLUDE_DIRECTORIES cfg)) eqn:Hm.
    + apply mem_path_In in Hm. cbn [In]. intuition auto.
    + assert (Hn : ~ In (joinpath root nm) (EXCLUDE_DIRECTORIES cfg)).
      { intro H. apply mem_path_In in H. congruence. }
      intuition auto.
Qed.

Lemma walk_directory_In cfg (root : Path) (es : list (string * node)) (p : Path) :
  In p (walk cfg root (Directory es)) <->
  (exists nm f, In (nm, File f) es /\ p = joinpath root nm) \/
  (exists nm entries,
     In (nm, Directory entries) es /\
     ~ In (joinpath root nm) (EXCLUDE_DIRECTORIES cfg) /\
     In p (walk cfg (joinpath root nm) (Directory entries))).
Proof.
  induction es as [|[nm sub] es IH].
  - cbn. split; [intros []|]. intros [(nm & f & [] & _)|(nm & e & [] & _)].
  - rewrite walk_cons_In, IH. clear IH. split.
    + intros [H|[(n & f & Hin & Hp)|(n & e & Hin & Hx)]].
      * destruct sub as [f|entries].
        -- left. exists nm, f. split; [now left|exact H].
        -- right. exists nm, entries. split; [now left|exact H].
      * left. exists n, f. split; [now right|exact Hp].
      * right. exists n, e. split; [now right|exact Hx].
    + intros [(n & f & [Heq|Hin] & Hp)|(n & e & [Heq|Hin] & Hx)].
      * inversion Heq; subst. now left.
      * right. left. now exists n, f.
      * inversion Heq; subst. now left.
      * right. right. now exists n, e.
Qed.

Lemma find_entry_In (nm : string) (es : list (string * node)) (n : node) :
  find_entry nm es = Some n -> In (nm, n) es.
Proof.
  induction es as [|[nm' m] es IH]; cbn; [discriminate|].
  destruct (String.eqb_spec nm nm') as [->|Hne].
  - intro H. inversion H. now left.
  - intro H. right. auto.
Qed.

Lemma find_entry_unique (nm : string) (es : list (string * node)) (n : node) :
  NoDup (map fst es) -> In (nm, n) es -> find_entry nm es = Some n.
Proof.
  induction es as [|[nm' m] es IH]; cbn; intros Hnd Hin; [contradiction|].
  inversion Hnd as [|? ? Hnotin Hnd']; subst.
  destruct (String.eqb_spec nm nm') as [->|Hne].
  - destruct Hin as [Heq|Hin]; [now inversion Heq|].
    exfalso. apply Hnotin. now apply (in_map fst) in Hin.
  - destruct Hin as [Heq|Hin]; [inversion Heq; congruence|auto].
Qed.

Lemma unique_names_entry (es : list (string * node)) (nm : string) (sub : node) :
  unique_names (Directory es) -> In (nm, sub) es -> unique_names sub.
Proof.
  cbn [unique_names]. intros [_ Hall] Hin.
  induction es as [|[nm' m] es IH]; [contradiction|].
  destruct Hall as [Hm Hes].
  destruct Hin as [Heq|Hin]; [now inversion Heq; subst|auto].
Qed.

Lemma lookup_app (p q : Path) :
  forall n m, lookup n p = Some m -> lookup n (p ++ q) = lookup m q.
Proof.
  induction p as [|c p IH]; intros n m H; cbn in *.
  - now inversion H.
  - destruct n as [f|entries]; [discriminate|].
    destruct (find_entry c entries) as [sub|]; [|discriminate]. now apply IH.
Qed.

Lemma not_pruned_one cfg (root : Path) (nm : string) :
  not_pruned cfg root [nm].
Proof.
  intros above below Heq Ha Hb.
  destruct above as [|a above]; [contradiction|].
  destruct above; destruct below; try contradiction; discriminate.
Qed.

Lemma not_pruned_step cfg (root : Path) (nm : string) (rest : Path) :
  rest <> [] ->
  (not_pruned cfg root (nm :: rest) <->
   ~ In (joinpath root nm) (EXCLUDE_DIRECTORIES cfg) /\
   not_pruned cfg (joinpath root nm) rest).
Proof.
  intro Hrest. unfold not_pruned, joinpath. split.
  - intro H. split.
    + apply (H [nm] rest); [reflexivity|discriminate|exact Hrest].
    + intros above below -> Ha Hb. rewrite <- app_assoc.
      apply (H (nm :: above) below); [reflexivity|discriminate|exact Hb].
  - intros [H1 H2] above below Heq Ha Hb.
    destruct above as [|a above]; [contradiction|].
    injection Heq as <- ->.
    destruct above as [|b above]; [exact H1|].
    replace (root ++ nm :: b :: above) with ((root ++ [nm]) ++ b :: above)
      by now rewrite <- app_assoc.
    apply (H2 (b :: above) below); [reflexivity|discriminate|exact Hb].
Qed.

(** Every path that the walk yields is a file of the tree, reached through
    directories that are not excluded. *)
Lemma walk_sound cfg (n : node) :
  unique_names n ->
  forall root p,
    In p (walk cfg root n) ->
    exists rest f,
      rest <> [] /\ p = root ++ rest /\ lookup n rest = Some (File f) /\
      not_pruned cfg root rest.
Proof.
  induction n as [f|entries IHn] using node_induction;
    intros Hu root p Hin; [contradiction|].
  rewrite Forall_forall in IHn.
  apply walk_directory_In in Hin.
  destruct Hin as [(nm & f & Hin & ->)|(nm & sub & Hin & Hex & Hw)].
  - exists [nm], f. split; [discriminate|]. split; [reflexivity|].
    split; [|apply not_pruned_one].
    cbn. now rewrite (find_entry_unique nm entries (File f) (proj1 Hu) Hin).
  - destruct (IHn (nm, Directory sub) Hin
                  (unique_names_entry entries nm _ Hu Hin) _ _ Hw)
      as (rest & f & Hne & -> & Hl & Hk).
    exists (nm :: rest), f. split; [discriminate|]. split.
    + unfold joinpath. now rewrite <- app_assoc.
    + split.
      * cbn [lookup snd] in *.
        now rewrite (find_entry_unique nm entries _ (proj1 Hu) Hin).
      * apply not_pruned_step; auto.
Qed.

(** Every file of the tree that is reached through directories that are
    not excluded is yielded by the walk. *)
Lemma walk_complete cfg (rest : Path) :
  forall n root f,
    lookup n rest = Some (File f) -> rest <> [] ->
    not_pruned cfg root rest ->
    In (root ++ rest) (walk cfg root n).
Proof.
  induction rest as [|nm rest IH]; intros n root f Hl Hne Hk; [contradiction|].
  cbn in Hl. destruct n as [g|entries]; [discriminate|].
  destruct (find_entry nm entries) as [sub|] eqn:Hf; [|discriminate].
  apply find_entry_In in Hf. apply walk_directory_In.
  destruct rest as [|c rest].
  - cbn in Hl. inversion Hl; subst sub. left. now exists nm, f.
  - destruct sub as [g|sub]; [discriminate|].
    apply not_pruned_step in Hk; [|discriminate]. destruct Hk as [Hex Hk].
    right. exists nm, sub. split; [exact Hf|]. split; [exact Hex|].
    replace (root ++ nm :: c :: rest) with (joinpath root nm ++ c :: rest)
      by (unfold joinpath; now rewrite <- app_assoc).
    apply (IH _ _ f); [exact Hl|discriminate|exact Hk].
Qed.

Lemma lookup_unique_names (p : Path) :
  forall n m, unique_names n -> lookup n p = Some m -> unique_names m.
Proof.
  induction p as [|c r IH]; intros n m Hu Hl; cbn in Hl.
  - now inversion Hl; subst.
  - destruct n as [f|entries]; [discriminate|].
    destruct (find_entry c entries) as [sub|] eqn:Hf; [|discriminate].
    apply (IH sub m); [|exact Hl].
    apply find_entry_In in Hf. exact (unique_names_entry _ _ _ Hu Hf).
Qed.

Lemma collect_files_sound cfg fs (root_dir p : Path) :
  unique_names fs ->
  In p (collect_files cfg fs root_dir) ->
  exists rest f,
    rest <> [] /\ p = root_dir ++ rest /\
    lookup fs p = Some (File f) /\
    not_pruned cfg root_dir rest.
Proof.
  intros Hu Hin. unfold collect_files in Hin.
  destruct (lookup fs root_dir) as [n|] eqn:Hroot; [|contradiction].
  pose proof (lookup_unique_names _ _ _ Hu Hroot) as Hun.
  destruct (walk_sound cfg n Hun _ _ Hin) as (rest & f & Hne & -> & Hl & Hk).
  exists rest, f. split; [exact Hne|]. split; [reflexivity|].
  split; [|exact Hk]. now rewrite (lookup_app _ rest _ _ Hroot).
Qed.

Lemma collect_files_complete cfg fs (root_dir rest : Path) (f : file) :
  lookup fs (root_dir ++ rest) = Some (File f) ->
  rest <> [] ->
  not_pruned cfg root_dir rest ->
  In (root_dir ++ rest) (collect_files cfg fs root_dir).
Proof.
  intros Hl Hne Hk. unfold collect_files.
  destruct (lookup fs root_dir) as [n|] eqn:Hroot.
  - rewrite (lookup_app _ rest _ _ Hroot) in Hl.
    exact (walk_complete cfg rest n root_dir f Hl Hne Hk).
  - exfalso. clear Hk. revert fs Hl Hroot.
    induction root_dir as [|c r IH]; intros fs Hl Hroot; cbn in *.
    + discriminate.
    + destruct fs as [g|entries]; [discriminate|].
      destruct (find_entry c entries) as [sub|]; [|discriminate].
      exact (IH sub Hl Hroot).
Qed.

(** X3: in a tree whose directories have entries with distinct names, every
    path that [collect_files] yields for a root lies below that root, is a
    file of the tree, and is reached from the root through directories none
    of which is an excluded directory: excluded subtrees are pruned. *)
Theorem X3_collect_files_yields_files_outside_excluded_subtrees
    cfg fs (root_dir p : Path) :
  unique_names fs ->
  In p (collect_files cfg fs root_dir) ->
  exists rest f,
    rest <> [] /\ p = root_dir ++ rest /\
    lookup fs p = Some (File f) /\
    not_pruned cfg root_dir rest.
Proof.
  intros Hu Hin.
  destruct (collect_files_sound cfg fs root_dir p Hu Hin) as (rest & f & H).
  now exists rest, f.
Qed.

Lemma X3_witness :
  unique_names fs_nested /\
  In ["top.txt"] (collect_files excluding_sub fs_nested []) /\
  exists rest f,
    rest <> [] /\ ["top.txt"] = [] ++ rest /\
    lookup fs_nested ["top.txt"] = Some (File f) /\
    not_pruned excluding_sub [] rest.
Proof.
  assert (Hu : unique_names fs_nested).
  { cbn. repeat split; repeat constructor; cbn; intuition discriminate. }
  assert (Hin : In ["top.txt"] (collect_files excluding_sub fs_nested []))
    by (now left).
  split; [exact Hu|]. split; [exact Hin|].
  exact (X3_collect_files_yields_files_outside_excluded_subtrees
           excluding_sub fs_nested [] ["top.txt"] Hu Hin).
Defined.

(** X4: [collect_files] misses no file: every file of the tree below the
    root that is reached from the root through directories none of which is
    an excluded directory is yielded.  The root itself is walked even when
    it is an excluded directory. *)
Theorem X4_collect_files_yields_every_file_outside_excluded_subtrees
    cfg fs (root_dir rest : Path) (f : file) :
  lookup fs (root_dir ++ rest) = Some (File f) ->
  rest <> [] ->
  not_pruned cfg root_dir rest ->
  In (root_dir ++ rest) (collect_files cfg fs root_dir).
Proof.
  intros Hl Hne Hk.
  now apply collect_files_complete with (f := f).
Qed.

Lemma X4_witness :
  lookup fs_nested (["sub"] ++ ["x.txt"])
  = Some (File (Readable [Text ("say whatever" ++ nl)%string])) /\
  ["x.txt"] <> [] /\
  not_pruned excluding_sub ["sub"] ["x.txt"] /\
  In (["sub"] ++ ["x.txt"]) (collect_files excluding_sub fs_nested ["sub"]).
Proof.
  assert (H2 : ["x.txt"] <> ([] : Path)) by discriminate.
  assert (H3 : not_pruned excluding_sub ["sub"] ["x.txt"])
    by apply not_pruned_one.
  split; [reflexivity|]. split; [exact H2|]. split; [exact H3|].
  exact (X4_collect_files_yields_every_file_outside_excluded_subtrees
           excluding_sub fs_nested ["sub"] ["x.txt"] _ eq_refl H2 H3).
Defined.

(** ** The store after a scan *)

Lemma dict_set_keys_known {V : Type} (k : string) (v : V) (d : dict V) :
  In k (keys d) -> keys (dict_set k v d) = keys d.
Proof.
  induction d as [|[k0 v0] d IH]; cbn; [intros []|].
  destruct (String.eqb_spec k k0) as [->|Hne]; [reflexivity|].
  intros [H|H]; [congruence|]. cbn. f_equal. exact (IH H).
Qed.

Lemma dict_set_keys_new {V : Type} (k : string) (v : V) (d : dict V) :
  ~ In k (keys d) -> keys (dict_set k v d) = keys d ++ [k].
Proof.
  induction d as [|[k0 v0] d IH]; cbn; [reflexivity|].
  intro H. destruct (String.eqb_spec k k0) as [->|Hne]; [tauto|].
  cbn. f_equal. apply IH. tauto.
Qed.

(** X5: [search_file] touches no entry of the store but the one of its own
    path, and keeps the order of the store: the key of the path keeps its
    place when it is there already and goes to the end when it is new; the
    report is left alone.  A scan that finds nothing leaves the whole store
    as it is. *)
Theorem X5_search_file_touches_only_its_entry
    re_other cfg fs (p : Path) (w : world) :
  (forall k, k <> str_path p ->
     dict_get k (results_dict (snd (search_file re_other cfg fs p w)))
     = dict_get k (results_dict w)) /\
  (keys (results_dict (snd (search_file re_other cfg fs p w)))
   = keys (results_dict w)
   \/ (~ In (str_path p) (keys (results_dict w)) /\
       fst (read_matches re_other cfg fs p) <> [] /\
       keys (results_dict (snd (search_file re_other cfg fs p w)))
       = keys (results_dict w) ++ [str_path p])) /\
  (fst (read_matches re_other cfg fs p) = [] ->
   results_dict (snd (search_file re_other cfg fs p w)) = results_dict w) /\
  csvfile (snd (search_file re_other cfg fs p w)) = csvfile w.
Proof.
  destruct (search_file_run re_other cfg fs p w) as (_ & Hd & Hc & _).
  rewrite Hd, Hc. unfold scan_into.
  destruct (fst (read_matches re_other cfg fs p)) as [|m ms] eqn:Hm.
  - repeat split; auto.
  - split; [|split; [|split]].
    + intros k Hk. now apply dict_get_set_other.
    + destruct (in_dec string_dec (str_path p) (keys (results_dict w))) as [Hin|Hnot].
      * left. now apply dict_set_keys_known.
      * right. split; [exact Hnot|]. split; [discriminate|].
        now apply dict_set_keys_new.
    + discriminate.
    + reflexivity.
Qed.

(** ** The order of the records *)

Lemma scan_increasing (pat : Re.pattern) (s : string) :
  forall skip pos, StronglySorted lt (Re.scan pat skip pos s).
Proof.
  induction s as [|c s IH]; intros skip pos.
  - destruct skip; cbn; [|constructor].
    destruct (Re.match_here pat ""); repeat constructor.
  - destruct skip as [|k]; cbn [Re.scan]; [|apply IH].
    destruct (Re.match_here pat (String c s)); [|apply IH].
    constructor; [apply IH|].
    apply Forall_forall. intros q Hq. apply scan_sound in Hq. lia.
Qed.

Lemma StronglySorted_app {A : Type} (R : A -> A -> Prop) (l1 l2 : list A) :
  StronglySorted R l1 -> StronglySorted R l2 ->
  (forall x y, In x l1 -> In y l2 -> R x y) ->
  StronglySorted R (l1 ++ l2).
Proof.
  intros H1 H2 H12. induction H1 as [|a l1 Hl1 IH Ha]; cbn; [exact H2|].
  constructor.
  - apply IH. intros x y Hx Hy. apply H12; [now right|exact Hy].
  - apply Forall_app. split; [exact Ha|].
    apply Forall_forall. intros y Hy. apply H12; [now left|exact Hy].
Qed.

Section Order.

Variable re_other : string -> string -> outcome (list nat).
Variable cfg : config.

(** The loop adds to what it holds. *)
Lemma scan_lines_app (lines : list string) :
  forall line_number local_results,
    fst (scan_lines re_other cfg line_number local_results lines)
    = local_results ++ fst (scan_lines re_other cfg line_number [] lines).
Proof.
  induction lines as [|line rest IH]; intros k acc; cbn.
  - now rewrite app_nil_r.
  - destruct (line_records re_other cfg (k + 1) line) as [found|e]; cbn.
    + rewrite IH, (IH (k + 1) found). cbn. now rewrite app_assoc.
    + now rewrite app_nil_r.
Qed.

Lemma scan_lines_later (lines : list string) (line_number : nat) (r : match_record) :
  In r (fst (scan_lines re_other cfg line_number [] lines)) ->
  line_number < line_of r.
Proof.
  intro Hin. apply scan_lines_In in Hin.
  destruct Hin as [[]|(i & line & found & _ & Hrec & Hr)].
  destruct (line_records_shape _ _ _ _ _ Hrec r Hr) as [Hn _]. lia.
Qed.

(** The records of the lines are in the order of the lines, whatever the
    order is within a line, as soon as it holds within every line. *)
Lemma scan_lines_sorted (R : match_record -> match_record -> Prop) :
  (forall r1 r2, line_of r1 < line_of r2 -> R r1 r2) ->
  (forall n line found,
     line_records re_other cfg n line = Return found -> StronglySorted R found) ->
  forall lines line_number,
    StronglySorted R (fst (scan_lines re_other cfg line_number [] lines)).
Proof.
  intros Hlines Hline.
  induction lines as [|line rest IH]; intro k; cbn; [constructor|].
  destruct (line_records re_other cfg (k + 1) line) as [found|e] eqn:Hrec;
    cbn; [|constructor].
  rewrite scan_lines_app. apply StronglySorted_app.
  - exact (Hline _ _ _ Hrec).
  - apply IH.
  - intros x y Hx Hy. apply Hlines.
    destruct (line_records_shape _ _ _ _ _ Hrec x Hx) as [Hn _].
    apply scan_lines_later in Hy. lia.
Qed.

Lemma line_records_same_line (n : nat) (line : string) (found : list match_record) :
  line_records re_other cfg n line = Return found ->
  StronglySorted (fun r1 r2 => line_of r1 <= line_of r2) found.
Proof.
  intro Hrec.
  assert (Hall : Forall (fun r => line_of r = n) found).
  { apply Forall_forall. intros r Hr.
    now destruct (line_records_shape _ _ _ _ _ Hrec r Hr). }
  clear Hrec. induction found as [|r found IH]; constructor.
  - apply IH. now inversion Hall.
  - inversion Hall as [|? ? Hr Hrest]; subst.
    eapply Forall_impl; [|exact Hrest]. cbn. intros a Ha. lia.
Qed.

Lemma line_records_left_to_right (pat : Re.pattern) (n : nat) (line : string)
    (found : list match_record) :
  Re.compile (SEARCH_TERM cfg) = Some pat ->
  line_records re_other cfg n line = Return found ->
  StronglySorted record_before found.
Proof.
  intros Hc Hrec. rewrite (line_records_fragment re_other cfg pat n line Hc) in Hrec.
  inversion Hrec; subst found.
  apply (StronglySorted_map lt); [|apply scan_increasing].
  intros x y Hxy. right. cbn. split; [reflexivity|exact Hxy].
Qed.

End Order.

(** X6: the records that [search_file] collects for a file are in the order
    of the lines; for a term of the modelled fragment they are strictly
    ordered by line and then by start: no record comes twice, and the
    matches of a line are listed from left to right. *)
Theorem X6_records_in_reading_order re_other cfg fs (p : Path) :
  StronglySorted (fun r1 r2 => line_of r1 <= line_of r2)
                 (fst (read_matches re_other cfg fs p)) /\
  (forall pat, Re.compile (SEARCH_TERM cfg) = Some pat ->
               StronglySorted record_before (fst (read_matches re_other cfg fs p))).
Proof.
  rewrite read_matches_fst.
  destruct (open_text fs p) as [chunks|e]; [|split; constructor].
  split.
  - apply scan_lines_sorted.
    + intros r1 r2 H. lia.
    + apply line_records_same_line.
  - intros pat Hc. apply scan_lines_sorted.
    + intros r1 r2 H. now left.
    + intros n line found. now apply line_records_left_to_right with (pat := pat).
Qed.

(** ** Case and the number of matches *)

Lemma is_meta_lower (c : ascii) : Re.is_meta (lower c) = Re.is_meta c.
Proof.
  destruct c as [[] [] [] [] [] [] [] []]; reflexivity.
Qed.

Lemma ci_equal_length (a : string) :
  forall b, ci_equal a b = true -> String.length a = String.length b.
Proof.
  induction a as [|x a IH]; intros [|y b] H; cbn in *; try discriminate.
  - reflexivity.
  - apply andb_prop in H. destruct H as [_ H]. f_equal. now apply IH.
Qed.

Lemma ci_equal_literal (a : string) :
  forall b, ci_equal a b = true -> Re.is_literal a = true -> Re.is_literal b = true.
Proof.
  induction a as [|x a IH]; intros [|y b] H Hl;
    cbn [ci_equal Re.is_literal] in *; try discriminate.
  - reflexivity.
  - apply andb_prop in H. destruct H as [Hxy H].
    apply andb_prop in Hl. destruct Hl as [Hx Hl].
    apply Ascii.eqb_eq in Hxy.
    rewrite <- (is_meta_lower y), <- Hxy, is_meta_lower, Hx.
    cbn [andb]. now apply (IH b).
Qed.

Lemma match_here_up_to_case (t : string) :
  forall t' s s',
    ci_equal t t' = true -> ci_equal s s' = true ->
    Re.match_here (lits t) s = Re.match_here (lits t') s'.
Proof.
  induction t as [|x t IH]; intros [|x' t'] s s' Ht Hs; cbn in Ht; try discriminate.
  - reflexivity.
  - apply andb_prop in Ht. destruct Ht as [Hx Ht]. apply Ascii.eqb_eq in Hx.
    destruct s as [|c s]; destruct s' as [|c' s']; cbn in Hs; try discriminate.
    + reflexivity.
    + apply andb_prop in Hs. destruct Hs as [Hc Hs]. apply Ascii.eqb_eq in Hc.
      cbn. rewrite Hx, Hc. f_equal. now apply IH.
Qed.

Lemma scan_up_to_case (t t' : string) :
  ci_equal t t' = true ->
  forall s s' skip pos,
    ci_equal s s' = true ->
    Re.scan (lits t) skip pos s = Re.scan (lits t') skip pos s'.
Proof.
  intro Ht.
  assert (Hlen : List.length (lits t) = List.length (lits t')).
  { rewrite !lits_length. now apply ci_equal_length. }
  induction s as [|c s IH]; intros [|c' s'] skip pos Hs; try discriminate Hs.
  - destruct skip; cbn; [|reflexivity].
    now rewrite (match_here_up_to_case t t' "" "" Ht eq_refl).
  - assert (Htail : ci_equal s s' = true).
    { cbn in Hs. apply andb_prop in Hs. apply Hs. }
    destruct skip as [|k]; cbn [Re.scan]; [|now apply IH].
    rewrite (match_here_up_to_case t t' _ _ Ht Hs), Hlen.
    destruct (Re.match_here (lits t') (String c' s')); [f_equal|]; now apply IH.
Qed.

(** X7: the search ignores case.  For a search term without special
    characters, a term that equals it up to case and a line that equals the
    line up to case give the same records. *)
Theorem X7_search_ignores_case
    re_other cfg cfg' (n : nat) (line line' : string) :
  Re.is_literal (SEARCH_TERM cfg) = true ->
  ci_equal (SEARCH_TERM cfg) (SEARCH_TERM cfg') = true ->
  ci_equal line line' = true ->
  line_records re_other cfg n line = line_records re_other cfg' n line'.
Proof.
  intros Hlit Ht Hl.
  pose proof (ci_equal_literal _ _ Ht Hlit) as Hlit'.
  rewrite (line_records_fragment re_other cfg _ n line (compile_literal _ Hlit)).
  rewrite (line_records_fragment re_other cfg' _ n line' (compile_literal _ Hlit')).
  unfold Re.starts.
  rewrite (scan_up_to_case _ _ Ht line line' 0 0 Hl).
  now rewrite (ci_equal_length _ _ Ht).
Qed.

Lemma X7_witness :
  Re.is_literal (SEARCH_TERM (with_term "whatever")) = true /\
  ci_equal (SEARCH_TERM (with_term "whatever")) (SEARCH_TERM (with_term "WhatEver"))
  = true /\
  ci_equal "So WHATEVER" "so whatever" = true /\
  line_records fragment_only (with_term "whatever") 3 "So WHATEVER"
  = line_records fragment_only (with_term "WhatEver") 3 "so whatever".
Proof.
  split; [reflexivity|]. split; [reflexivity|]. split; [reflexivity|].
  exact (X7_search_ignores_case fragment_only (with_term "whatever")
           (with_term "WhatEver") 3 "So WHATEVER" "so whatever"
           eq_refl eq_refl eq_refl).
Defined.

Lemma scan_room (pat : Re.pattern) (s : string) :
  forall skip pos,
    List.length (Re.scan pat skip pos s) * List.length pat
    <= String.length s - skip.
Proof.
  induction s as [|c s IH]; intros skip pos.
  - destruct skip; cbn; [|lia].
    destruct (Re.match_here pat "") eqn:Hm; [|cbn; lia].
    apply match_here_length in Hm. cbn in *. lia.
  - destruct skip as [|k]; cbn [Re.scan String.length].
    + destruct (Re.match_here pat (String c s)) eqn:Hm.
      * apply match_here_length in Hm. cbn [String.length List.length] in *.
        specialize (IH (pred (List.length pat)) (S pos)). lia.
      * specialize (IH 0 (S pos)). lia.
    + specialize (IH k (S pos)). lia.
Qed.

(** X8: the matches of a line do not overlap, so a line has room for a
    bounded number of them: for a term of the modelled fragment, the number
    of records of a line times the length of the term is at most the number
    of characters of the line. *)
Theorem X8_matches_of_a_line_fit_in_the_line
    re_other cfg (pat : Re.pattern) (n : nat) (line : string)
    (records : list match_record) :
  Re.compile (SEARCH_TERM cfg) = Some pat ->
  line_records re_other cfg n line = Return records ->
  List.length records * String.length (SEARCH_TERM cfg) <= String.length line.
Proof.
  intros Hc Hrec.
  rewrite (line_records_fragment re_other cfg pat n line Hc) in Hrec.
  inversion Hrec; subst records.
  rewrite length_map, <- (compile_length _ _ Hc).
  pose proof (scan_room pat line 0 0) as H. unfold Re.starts. lia.
Qed.

Lemma X8_witness :
  Re.compile (SEARCH_TERM (with_term "aa")) = Some (lits "aa") /\
  line_records fragment_only (with_term "aa") 1 "aaaaa"
  = Return [(1, 0, 2); (1, 2, 4)] /\
  List.length [(1, 0, 2); (1, 2, 4)] * String.length (SEARCH_TERM (with_term "aa"))
  <= String.length "aaaaa".
Proof.
  split; [reflexivity|]. split; [reflexivity|].
  exact (X8_matches_of_a_line_fit_in_the_line fragment_only (with_term "aa")
           (lits "aa") 1 "aaaaa" [(1, 0, 2); (1, 2, 4)] eq_refl eq_refl).
Defined.

(** ** What [main] prints *)

Section Printed.

Variable re_other : string -> string -> outcome (list nat).
Variable cfg : config.
Variable fs : node.

Lemma is_file_searchable_prints (p : Path) (w : world) :
  exists ws,
    stdout (snd (is_file_searchable cfg fs p w)) = stdout w ++ ws /\
    Forall (warning_about cfg fs [p]) ws.
Proof.
  destruct (is_file_searchable_run cfg fs p w) as (Hb & _).
  destruct (is_file_searchable_cases cfg fs p w) as [[Hno Heq]|[Hyes Heq]].
  - exists []. rewrite Heq. cbn. now rewrite app_nil_r.
  - rewrite Heq in *. destruct (sniff fs p) as [text|e].
    + exists []. cbn. now rewrite app_nil_r.
    + assert (Hs : searchable cfg fs p = false).
      { destruct e; cbn in Hb; now inversion Hb. }
      destruct e;
        match goal with
        | |- context [not_searchable p UnicodeDecodeError w] =>
            exists []; cbn; now rewrite app_nil_r
        | |- context [not_searchable p ?e w] =>
            exists [Warning_unable_to_read p e]; split; [reflexivity|];
            apply Forall_cons; [|apply Forall_nil];
            exists p, e; split; [now left|]; split; [exact Hs|];
            split; [discriminate|reflexivity]
        end.
Qed.

Lemma warning_about_more (files files' : list Path) (ws : list message) :
  (forall p, In p files -> In p files') ->
  Forall (warning_about cfg fs files) ws -> Forall (warning_about cfg fs files') ws.
Proof.
  intros Hsub H. eapply Forall_impl; [|exact H].
  intros m (p & e & Hp & H1 & H2 & H3). exists p, e. auto.
Qed.

Lemma select_prints (xs : list Path) :
  forall w,
    exists ws,
      stdout (snd (select (is_file_searchable cfg fs) xs w)) = stdout w ++ ws /\
      Forall (warning_about cfg fs xs) ws.
Proof.
  induction xs as [|x xs IH]; intro w.
  - exists []. cbn. now rewrite app_nil_r.
  - cbn [select].
    destruct (is_file_searchable_run cfg fs x w) as (Hb & _).
    rewrite (bind_run _ _ _ _ Hb).
    destruct (is_file_searchable_prints x w) as (ws1 & H1 & F1).
    destruct (IH (snd (is_file_searchable cfg fs x w))) as (ws2 & H2 & F2).
    destruct (select_run cfg fs xs (snd (is_file_searchable cfg fs x w)))
      as (Hl & _).
    rewrite (bind_run _ _ _ _ Hl). cbn [ret snd].
    exists (ws1 ++ ws2). split.
    + now rewrite H2, H1, app_assoc.
    + apply Forall_app. split.
      * apply (warning_about_more [x]); [|exact F1].
        intros p [<-|[]]. now left.
      * apply (warning_about_more xs); [|exact F2]. intros p Hp. now right.
Qed.

Lemma filter_phase_prints (completed : list Path) (w : world) :
  exists ws,
    stdout (snd (filter_phase cfg fs completed w))
    = stdout w ++
      Total_files_collected (List.length (all_files cfg fs)) :: ws ++
      [Total_searchable_files (List.length (filter (searchable cfg fs) completed))] /\
    Forall (warning_about cfg fs completed) ws.
Proof.
  unfold filter_phase.
  rewrite (bind_run (print _) _ w tt eq_refl).
  set (w1 := snd (print (Total_files_collected (List.length (all_files cfg fs))) w)).
  destruct (select_run cfg fs completed w1) as (H1 & _).
  rewrite (bind_run _ _ _ _ H1).
  destruct (select_prints completed w1) as (ws & Hs & Fs).
  exists ws. split; [|exact Fs].
  rewrite (bind_run (print _) _ _ tt eq_refl). cbn [ret snd print stdout].
  rewrite Hs. subst w1. cbn [print snd stdout].
  now rewrite <- !app_assoc.
Qed.

Lemma pool_step_prints (files : list Path) (n : nat) (st st' : pool) :
  pool_step re_other cfg fs n st st' ->
  pool_inv re_other cfg fs files st ->
  exists es,
    stdout (shared st') = stdout (shared st) ++ es /\
    Forall (error_about re_other cfg fs files) es.
Proof.
  intros Hstep [_ _ _ Ht _].
  destruct Hstep as [p q ts w Hfree|q ts1 p ts2 w|q ts1 p found ts2 w];
    cbn [queue running shared] in *.
  - exists []. now rewrite app_nil_r.
  - rewrite Forall_forall in Ht.
    assert (Hp : In p files).
    { apply (Ht (Scanning p)). apply in_middle. now left. }
    destruct (report_error_run p (snd (read_matches re_other cfg fs p)) w)
      as (_ & _ & _ & Hs).
    rewrite Hs. eexists. split; [reflexivity|].
    destruct (snd (read_matches re_other cfg fs p)) as [e|] eqn:He; [|constructor].
    constructor; [|constructor]. now exists p, e.
  - destruct (record_run (str_path p) found w) as (_ & _ & _ & Hs).
    exists []. now rewrite Hs, app_nil_r.
Qed.

Lemma pool_steps_prints (files : list Path) (n : nat) (st st' : pool) :
  pool_steps re_other cfg fs n st st' ->
  pool_inv re_other cfg fs files st ->
  exists es,
    stdout (shared st') = stdout (shared st) ++ es /\
    Forall (error_about re_other cfg fs files) es.
Proof.
  induction 1 as [st|st1 st2 st3 Hstep _ IH]; intro Hinv.
  - exists []. now rewrite app_nil_r.
  - destruct (pool_step_prints files n _ _ Hstep Hinv) as (es1 & H1 & F1).
    destruct (IH (pool_step_inv re_other cfg fs files n _ _ Hstep Hinv))
      as (es2 & H2 & F2).
    exists (es1 ++ es2). split; [now rewrite H2, H1, app_assoc|].
    apply Forall_app. now split.
Qed.

Lemma filter_permutation_length (f : Path -> bool) (l l' : list Path) :
  Permutation l l' -> List.length (filter f l) = List.length (filter f l').
Proof.
  induction 1 as [|x l l' _ IH|x y l|l l' l'' _ IH1 _ IH2]; cbn.
  - reflexivity.
  - destruct (f x); cbn; congruence.
  - destruct (f x); destruct (f y); reflexivity.
  - congruence.
Qed.

End Printed.

(** X9: whatever the scheduler does, [main] prints, in this order: the
    number of files collected; warnings, each about a collected file that
    is not searchable and for an exception that is not a decode error; the
    number of searchable files; error lines, each about a searchable file
    and with the exception that left its scan; and the line of completion.
    The number of searchable files is at most the number of files
    collected, and the report has at most as many rows as there are
    searchable files. *)
Theorem X9_main_prints_counts_and_messages re_other cfg fs (w' : world) :
  main_scheduled re_other cfg fs w' ->
  exists warnings errors,
    stdout w'
    = Total_files_collected (List.length (all_files cfg fs))
      :: warnings
      ++ Total_searchable_files
           (List.length (filter (searchable cfg fs) (all_files cfg fs)))
      :: errors
      ++ [Search_completed (OUTPUT_CSV cfg)] /\
    Forall (warning_about cfg fs (all_files cfg fs)) warnings /\
    Forall (error_about re_other cfg fs
              (filter (searchable cfg fs) (all_files cfg fs))) errors /\
    List.length (filter (searchable cfg fs) (all_files cfg fs))
    <= List.length (all_files cfg fs) /\
    List.length (data_rows w')
    <= List.length (filter (searchable cfg fs) (all_files cfg fs)).
Proof.
  intros (completed & fts & w1 & w2 & Hperm & Hfilter & Hrun & ->).
  destruct (filter_phase_run cfg fs completed initial_world) as (F1 & F2 & _).
  destruct (filter_phase_prints cfg fs completed initial_world) as (ws & Hws & Fws).
  rewrite Hfilter in F1, F2, Hws. cbn [fst snd] in F1, F2, Hws.
  inversion F1; subst fts. clear F1.
  pose proof (pool_inv_start re_other cfg fs
                (filter (searchable cfg fs) completed) w1 F2) as Hinv.
  destruct (pool_steps_prints re_other cfg fs _ _ _ _ Hrun Hinv) as (es & Hes & Fes).
  destruct (executor_map_sound re_other cfg fs _ _ w1 w2 F2 Hrun) as (Hk & Hi & _).
  cbn [shared] in Hes.
  exists ws, es. split; [|split; [|split; [|split]]].
  - cbn [report_phase]. unfold report_phase, write_to_csv, print, bind.
    cbn [snd stdout].
    rewrite Hes, Hws, (filter_permutation_length _ _ _ Hperm).
    cbn [initial_world stdout app]. now rewrite <- !app_assoc.
  - apply (warning_about_more cfg fs completed); [|exact Fws].
    intros p Hp. exact (Permutation_in _ Hperm Hp).
  - eapply Forall_impl; [|exact Fes].
    intros m (p & e & Hp & He & Hm). exists p, e.
    split; [now apply (filter_permutation cfg fs completed)|]. now split.
  - apply filter_length_le.
  - destruct (report_phase_run cfg w2) as (_ & _ & R3).
    unfold data_rows. rewrite R3. cbn [tl]. rewrite length_map.
    rewrite <- (filter_permutation_length _ _ _ Hperm).
    rewrite <- (length_map str_path (filter (searchable cfg fs) completed)).
    rewrite <- (length_map fst (results_dict w2)).
    apply NoDup_incl_length; [exact Hk|].
    intros k Hin. apply key_has_item in Hin. destruct Hin as [v Hin].
    destruct (Hi _ _ Hin) as (p & Hp & -> & _). now apply in_map.
Qed.

Lemma X9_witness :
  main_scheduled fragment_only default_config fs_binary
    (snd (main fragment_only default_config fs_binary initial_world)) /\
  exists warnings errors,
    stdout (snd (main fragment_only default_config fs_binary initial_world))
    = Total_files_collected 2 :: warnings
      ++ Total_searchable_files 1 :: errors
      ++ [Search_completed "search_results.csv"].
Proof.
  assert (H : main_scheduled fragment_only default_config fs_binary
                (snd (main fragment_only default_config fs_binary initial_world))).
  { apply main_scheduled_in_turn. cbn. lia. }
  split; [exact H|].
  destruct (X9_main_prints_counts_and_messages
              fragment_only default_config fs_binary _ H)
    as (warnings & errors & Hs & _).
  exists warnings, errors. exact Hs.
Defined.

(** ** The report of [main] *)

(** X10: whatever the scheduler does, the report of [main] starts with the
    header, and every row below it is for a collected file that is
    searchable and has a match: the row holds the string of its path, the
    number of its records and the string of the list of its records.  In a
    tree whose entries have proper names, searched from well-formed roots,
    every collected file that is searchable and has a match has this row.
    When no searchable file has a match, the report is the header alone. *)
Theorem X10_report_of_main re_other cfg fs (w' : world) :
  main_scheduled re_other cfg fs w' ->
  csvfile w' = ["File Path"; "Occurrence Count"; "Positions"] :: data_rows w' /\
  (forall row,
     In row (data_rows w') ->
     exists p,
       In p (all_files cfg fs) /\ searchable cfg fs p = true /\
       fst (read_matches re_other cfg fs p) <> [] /\
       row = [str_path p;
              str_nat (List.length (fst (read_matches re_other cfg fs p)));
              str_positions (fst (read_matches re_other cfg fs p))]) /\
  (names_ok fs -> Forall well_formed (DIRECTORIES_TO_SEARCH cfg) ->
   forall p,
     In p (all_files cfg fs) -> searchable cfg fs p = true ->
     fst (read_matches re_other cfg fs p) <> [] ->
     In [str_path p;
         str_nat (List.length (fst (read_matches re_other cfg fs p)));
         str_positions (fst (read_matches re_other cfg fs p))]
        (data_rows w')) /\
  ((forall p,
      In p (all_files cfg fs) -> searchable cfg fs p = true ->
      fst (read_matches re_other cfg fs p) = []) ->
   csvfile w' = [["File Path"; "Occurrence Count"; "Positions"]]).
Proof.
  intro Hrun.
  destruct (main_scheduled_sound re_other cfg fs w' Hrun) as (Hc & Hk & Hi & Ha).
  assert (Hrows : data_rows w' = map report_row (results_dict w')).
  { unfold data_rows. now rewrite Hc. }
  split; [now rewrite Hrows|]. split; [|split].
  - intros row Hrow. rewrite Hrows in Hrow. apply in_map_iff in Hrow.
    destruct Hrow as ([k v] & <- & Hin).
    destruct (Hi _ _ Hin) as (p & Hp & -> & -> & Hne).
    apply filter_In in Hp. destruct Hp as [Hp Hs].
    exists p. repeat split; auto.
  - intros Hfs Hroots p Hp Hs Hne.
    pose proof (all_files_well_formed cfg fs Hfs Hroots) as Hall.
    rewrite Forall_forall in Hall.
    assert (Hpf : In p (filter (searchable cfg fs) (all_files cfg fs)))
      by (apply filter_In; now split).
    pose proof (Ha p Hpf Hne) as Hkey.
    apply key_has_item in Hkey. destruct Hkey as [v Hin].
    destruct (Hi _ _ Hin) as (q & Hq & Hstr & -> & _).
    assert (p = q).
    { apply str_path_inj; auto. apply Hall. apply filter_In in Hq. apply Hq. }
    subst q. rewrite Hrows.
    change [str_path p;
            str_nat (List.length (fst (read_matches re_other cfg fs p)));
            str_positions (fst (read_matches re_other cfg fs p))]
      with (report_row (str_path p, fst (read_matches re_other cfg fs p))).
    now apply in_map.
  - intro Hnone. rewrite Hc.
    destruct (results_dict w') as [|[k v] d]; [reflexivity|].
    destruct (Hi k v (or_introl eq_refl)) as (p & Hp & _ & -> & Hne).
    apply filter_In in Hp. destruct Hp as [Hp Hs].
    now rewrite (Hnone p Hp Hs) in Hne.
Qed.

Lemma X10_witness :
  main_scheduled fragment_only default_config fs_nested
    (snd (main fragment_only default_config fs_nested initial_world)) /\
  csvfile (snd (main fragment_only default_config fs_nested initial_world))
  = ["File Path"; "Occurrence Count"; "Positions"]
    :: data_rows (snd (main fragment_only default_config fs_nested initial_world)).
Proof.
  assert (H : main_scheduled fragment_only default_config fs_nested
                (snd (main fragment_only default_config fs_nested initial_world))).
  { apply main_scheduled_in_turn. cbn. lia. }
  split; [exact H|].
  exact (proj1 (X10_report_of_main fragment_only default_config fs_nested _ H)).
Defined.

(** ** The traversal and the filter *)

Lemma walk_below cfg (n : node) :
  forall (root p : Path),
  In p (walk cfg root n) ->
  exists es nm sub rest,
    n = Directory es /\ In (nm, sub) es /\ p = root ++ nm :: rest.
Proof.
  induction n as [f|entries IHn] using node_induction;
    intros root p Hin; [contradiction|].
  rewrite Forall_forall in IHn.
  apply walk_directory_In in Hin.
  destruct Hin as [(nm & f & Hin & ->)|(nm & sub & Hin & _ & Hw)].
  - now exists entries, nm, (File f), [].
  - destruct (IHn (nm, Directory sub) Hin _ _ Hw)
      as (es' & nm' & sub' & rest & _ & _ & ->).
    exists entries, nm, (Directory sub), (nm' :: rest).
    split; [reflexivity|]. split; [exact Hin|].
    unfold joinpath. now rewrite <- app_assoc.
Qed.

Lemma walk_first_part cfg (root : Path) (es : list (string * node)) (p : Path) :
  In p (walk cfg root (Directory es)) ->
  exists nm sub rest, In (nm, sub) es /\ p = root ++ nm :: rest.
Proof.
  intro Hin.
  destruct (walk_below cfg _ _ _ Hin) as (es' & nm & sub & rest & Heq & H).
  injection Heq as <-. now exists nm, sub, rest.
Qed.

Lemma walk_cons_perm cfg (root : Path) (nm : string) (sub : node)
    (es : list (string * node)) :
  Permutation
    (match sub with
     | File _ => [joinpath root nm]
     | Directory _ =>
         if mem_path (joinpath root nm) (EXCLUDE_DIRECTORIES cfg)
         then []
         else walk cfg (joinpath root nm) sub
     end ++ walk cfg root (Directory es))
    (walk cfg root (Directory ((nm, sub) :: es))).
Proof.
  cbn [walk]. unfold file_names. cbn [flat_map snd fst].
  destruct sub as [f|entries]; cbn [app map].
  - apply Permutation_refl.
  - apply Permutation_app_swap_app.
Qed.

(** The walk of a tree with distinct names yields no path twice. *)
Lemma walk_NoDup cfg (n : node) :
  unique_names n -> forall root, NoDup (walk cfg root n).
Proof.
  induction n as [f|entries IHn] using node_induction;
    intros Hu root; [constructor|].
  induction entries as [|[nm sub] es IH]; [constructor|].
  inversion IHn as [|? ? Hhead Hrest]; subst.
  destruct Hu as [Hnd Hall]. cbn [map fst] in Hnd.
  inversion Hnd as [|? ? Hnotin Hnd']; subst.
  destruct Hall as [Hsub Hes].
  apply (Permutation_NoDup (walk_cons_perm cfg root nm sub es)).
  apply NoDup_app.
  - destruct sub as [f|sub]; [repeat constructor; intros []|].
    destruct (mem_path _ _); [constructor|]. now apply Hhead.
  - apply IH; [exact Hrest|]. now split.
  - intros x Hx Hx'.
    apply walk_first_part in Hx'.
    destruct Hx' as (nm' & sub' & rest' & Hin' & ->).
    assert (Hnm : exists rest, root ++ nm' :: rest' = root ++ nm :: rest).
    { destruct sub as [f|sub].
      - destruct Hx as [Hx|[]]. exists []. now rewrite <- Hx.
      - destruct (mem_path _ _); [contradiction|].
        apply walk_first_part in Hx.
        destruct Hx as (a & b & rest & _ & Hx). exists (a :: rest).
        rewrite Hx. unfold joinpath. now rewrite <- app_assoc. }
    destruct Hnm as [rest Heq]. apply app_inv_head in Heq.
    injection Heq as -> _. apply Hnotin.
    now apply (in_map fst) in Hin'.
Qed.

Lemma app_eq_overlap (r1 r2 a b : Path) :
  r1 ++ a = r2 ++ b -> overlap r1 r2.
Proof.
  revert r2. induction r1 as [|x r1 IH]; intros r2 H.
  - left. now exists r2.
  - destruct r2 as [|y r2].
    + right. now exists (x :: r1).
    + cbn in H. injection H as -> H.
      destruct (IH r2 H) as [[rest ->]|[rest ->]].
      * left. now exists rest.
      * right. now exists rest.
Qed.

(** X11: in a tree whose directories have entries with distinct names,
    [collect_files] yields no path twice for one root; a path that it
    yields for two roots is found only when one of the roots is the other
    or lies below it; so when no two roots of the list of the directories
    to search overlap, [main] collects no file twice. *)
Theorem X11_collect_files_yields_no_path_twice cfg fs :
  unique_names fs ->
  (forall root_dir, NoDup (collect_files cfg fs root_dir)) /\
  (forall r1 r2 p,
     In p (collect_files cfg fs r1) -> In p (collect_files cfg fs r2) ->
     overlap r1 r2) /\
  (ForallOrdPairs (fun r1 r2 => ~ overlap r1 r2) (DIRECTORIES_TO_SEARCH cfg) ->
   NoDup (all_files cfg fs)).
Proof.
  intro Hu.
  assert (Hone : forall root_dir, NoDup (collect_files cfg fs root_dir)).
  { intro root_dir. unfold collect_files.
    destruct (lookup fs root_dir) as [n|] eqn:Hroot; [|constructor].
    apply walk_NoDup. exact (lookup_unique_names _ _ _ Hu Hroot). }
  assert (Htwo : forall r1 r2 p,
             In p (collect_files cfg fs r1) -> In p (collect_files cfg fs r2) ->
             overlap r1 r2).
  { intros r1 r2 p H1 H2.
    destruct (collect_files_sound cfg fs r1 p Hu H1) as (a & _ & _ & -> & _).
    destruct (collect_files_sound cfg fs r2 _ Hu H2) as (b & _ & _ & Heq & _).
    exact (app_eq_overlap _ _ _ _ Heq). }
  split; [exact Hone|]. split; [exact Htwo|].
  unfold all_files.
  induction (DIRECTORIES_TO_SEARCH cfg) as [|r roots IH]; intro Hapart;
    [constructor|].
  inversion Hapart as [|? ? Hr Hroots]; subst. cbn [flat_map].
  apply NoDup_app; [apply Hone|exact (IH Hroots)|].
  intros p H1 H2. apply in_flat_map in H2. destruct H2 as (r2 & Hin & H2).
  rewrite Forall_forall in Hr. exact (Hr r2 Hin (Htwo _ _ _ H1 H2)).
Qed.

Lemma X11_witness :
  unique_names fs_two_dirs /\
  ForallOrdPairs (fun r1 r2 => ~ overlap r1 r2)
                 (DIRECTORIES_TO_SEARCH separate_roots) /\
  NoDup (collect_files separate_roots fs_two_dirs ["a"]) /\
  NoDup (all_files separate_roots fs_two_dirs) /\
  all_files separate_roots fs_two_dirs = [ ["a"; "x.txt"]; ["b"; "x.txt"] ].
Proof.
  assert (Hu : unique_names fs_two_dirs).
  { cbn. repeat split; repeat constructor; cbn; intuition discriminate. }
  assert (Hapart : ForallOrdPairs (fun r1 r2 => ~ overlap r1 r2)
                     (DIRECTORIES_TO_SEARCH separate_roots)).
  { cbn. repeat constructor.
    intros [[rest H]|[rest H]]; cbn in H; discriminate H. }
  split; [exact Hu|]. split; [exact Hapart|].
  destruct (X11_collect_files_yields_no_path_twice separate_roots fs_two_dirs Hu)
    as (Hone & _ & Hall).
  split; [exact (Hone ["a"])|]. split; [exact (Hall Hapart)|reflexivity].
Defined.

Lemma searchable_without_exclusions cfg fs (p : Path) :
  searchable cfg fs p = true -> passes_path_rules cfg p.
Proof.
  unfold searchable. intro H.
  destruct (is_file_searchable_cases cfg fs p initial_world) as [[_ Heq]|[Hyes _]];
    [|exact Hyes].
  rewrite Heq in H. discriminate H.
Qed.

(** X12: pruning loses no searchable file.  In a tree whose directories
    have entries with distinct names, a file is collected and searchable
    exactly when it is searchable and would be collected without any
    excluded directory: the subtrees that [collect_files] skips hold no
    file that [is_file_searchable] accepts. *)
Theorem X12_pruning_loses_no_searchable_file cfg fs (root_dir p : Path) :
  unique_names fs ->
  (In p (collect_files cfg fs root_dir) /\ searchable cfg fs p = true
   <->
   In p (collect_files (without_exclusions cfg) fs root_dir) /\
   searchable cfg fs p = true).
Proof.
  intro Hu. split; intros [Hin Hs]; (split; [|exact Hs]).
  - destruct (collect_files_sound cfg fs root_dir p Hu Hin)
      as (rest & f & Hne & -> & Hl & _).
    apply collect_files_complete with (f := f); auto.
    intros above below _ _ _ [].
  - destruct (collect_files_sound _ fs root_dir p Hu Hin)
      as (rest & f & Hne & -> & Hl & _).
    apply collect_files_complete with (f := f); auto.
    intros above below -> Ha Hb Hex.
    destruct (searchable_without_exclusions cfg fs _ Hs) as (Hdir & _).
    apply (Hdir _ Hex). exists below. now rewrite app_assoc.
Qed.

Lemma X12_witness :
  unique_names fs_nested /\
  (In ["top.txt"] (collect_files excluding_sub fs_nested []) /\
   searchable excluding_sub fs_nested ["top.txt"] = true
   <->
   In ["top.txt"] (collect_files (without_exclusions excluding_sub) fs_nested []) /\
   searchable excluding_sub fs_nested ["top.txt"] = true).
Proof.
  assert (Hu : unique_names fs_nested).
  { cbn. repeat split; repeat constructor; cbn; intuition discriminate. }
  split; [exact Hu|].
  exact (X12_pruning_loses_no_searchable_file excluding_sub fs_nested []
           ["top.txt"] Hu).
Defined.
